(** * The API layer of electron-netease-cloud-music ([src/main/api/index.js])

  A shallow embedding of the functions of [index.js] that the
  specification talks about, and the properties they have.

  Conventions of the embedding:
  - JavaScript strings are [string] (sequences of bytes, UTF-8 for text
    outside ASCII);
  - JavaScript numbers that the code handles (track ids, ports, bit rates,
    byte sizes, status codes) are integers of [Z]; sums of sizes stay below
    2^53, where the addition of doubles is exact;
  - a promise is described by how it settles ([Resolved], [Rejected]) or by
    the fact that it never settles ([Pending]);
  - the collaborators that are imported by [index.js] (the HTTP client, the
    disk cache, the music server, [lrc-kit]) are taken as parameters of the
    sections that use them. *)

From Stdlib Require Import ZArith List Bool Ascii String DecimalString Lia.
From Stdlib Require Import Sorted DecimalPos DecimalZ.
From stdpp Require Import base option list strings gmap.

Local Open Scope string_scope.
Local Open Scope list_scope.
Local Open Scope Z_scope.

(** ** JavaScript values *)

Module JS.

(** The values of the language that reach the modelled code. A function
    or an object that is only tested for truthiness carries its name. *)
Inductive value : Type :=
| VUndefined
| VNull
| VBool (b : bool)
| VNum (n : Z)
| VStr (s : string)
| VFunction (name : string)
| VObject (name : string).

#[export] Instance value_eq_dec : EqDecision value.
Proof. solve_decision. Defined.

(** [ToBoolean]. *)
Definition truthy (v : value) : bool :=
  match v with
  | VUndefined | VNull => false
  | VBool b => b
  | VNum n => negb (Z.eqb n 0)
  | VStr s => negb (String.eqb s "")
  | VFunction _ | VObject _ => true
  end.

(** [a === b] on the values above (two functions or objects are the same
    when they are the same named object). *)
Definition strict_eq (a b : value) : bool := bool_decide (a = b).

(** An exception value: the class of the error and its message. *)
Inductive error : Type :=
| Error (msg : string)
| TypeError (msg : string)
| SystemError (code : string).

#[export] Instance error_eq_dec : EqDecision error.
Proof. solve_decision. Defined.

(** How a promise ends. *)
Inductive promise (A : Type) : Type :=
| Resolved (a : A)
| Rejected (e : error)
| Pending.
Arguments Resolved {A} a.
Arguments Rejected {A} e.
Arguments Pending {A}.

(** ['' + n] for an integer [n]. *)
Definition string_of_number (n : Z) : string :=
  NilZero.string_of_int (Z.to_int n).

End JS.
Import JS.

(** ** The HTTP client and its cookie jar *)

Module Client.

(** The three request functions of the client. *)
Inductive api : Type := W | E | L.

(** The calls [index.js] makes on [client], in the order it makes them. *)
Inductive call : Type :=
| CallPost (a : api) (path : string)
| CallUpdateCookie (cookie : option (gmap string string)).

(** Modelled from the spec: [httpClient.js] is not in the source tree;
    section 4.2 says of [updateCookie(cookieOrNone)] that it "replaces the
    entire cookie set; passing nothing clears it". *)
Definition updateCookie (cookie : option (gmap string string))
    (jar : gmap string string) : gmap string string :=
  match cookie with
  | Some c => c
  | None => ∅
  end.

(** A response body: its [code] field and the rest of its fields. *)
Record response : Type := { code : value; fields : list (string * value) }.

End Client.

(** ** [updateCookie] and [logout] *)

(** [export function updateCookie(cookie)], lines 37-39. *)
Definition updateCookie (cookie : option (gmap string string))
    (jar : gmap string string) : gmap string string :=
  Client.updateCookie cookie jar.

Section Logout.

(** One exchange with the server: from the path and the cookie jar, either
    a failure of the transport or a parsed response, and the jar after the
    [Set-Cookie] headers of the response were merged in. *)
Variable postW :
  string -> gmap string string -> (error + Client.response) * gmap string string.

(** The state after a call: how the promise settled, the cookie jar, and
    the calls made on the client. *)
Record logout_run : Type := {
  settled : promise value;
  jar_after : gmap string string;
  calls : list Client.call
}.

(** [export async function logout()], lines 71-77. *)
Definition logout (jar : gmap string string) : logout_run :=
  match postW "/logout" jar with
  | (inl e, jar1) =>
      {| settled := Rejected e; jar_after := jar1;
         calls := [Client.CallPost Client.W "/logout"] |}
  | (inr resp, jar1) =>
      if strict_eq (Client.code resp) (VNum 200) then
        {| settled := Resolved (Client.code resp);
           jar_after := Client.updateCookie None jar1;
           calls := [Client.CallPost Client.W "/logout";
                     Client.CallUpdateCookie None] |}
      else
        {| settled := Resolved (Client.code resp);
           jar_after := jar1;
           calls := [Client.CallPost Client.W "/logout"] |}
  end.

End Logout.

(** ** Temporary music urls: [getMusicUrlW], [getMusicUrlL], [getMusicUrlE] *)

Module MusicUrl.

(** The properties every object literal inherits from [Object.prototype]:
    the methods are functions, [__proto__] reads the prototype itself. *)
Definition ObjectPrototype (key : string) : value :=
  if bool_decide (key ∈ ["constructor"; "hasOwnProperty"; "isPrototypeOf";
                         "propertyIsEnumerable"; "toLocaleString";
                         "toString"; "valueOf"; "__defineGetter__";
                         "__defineSetter__"; "__lookupGetter__";
                         "__lookupSetter__"])
  then VFunction key
  else if String.eqb key "__proto__" then VObject "Object.prototype"
  else VUndefined.

(** [const QualityMap = { h: 320000, m: 192000, l: 128000 }], lines
    184-188, read as [QualityMap[quality]]: the own properties first, then
    the prototype chain. *)
Definition QualityMap (quality : string) : value :=
  if String.eqb quality "h" then VNum 320000
  else if String.eqb quality "m" then VNum 192000
  else if String.eqb quality "l" then VNum 128000
  else ObjectPrototype quality.

(** [number|number[]]. *)
Inductive idOrIds : Type :=
| OneId (id : Z)
| IdArray (ids : list Z).

(** The body of the request. *)
Record body : Type := { ids : list Z; br : value }.

(** What a call does: it throws, or it hands a request to the client and
    returns the client's promise. *)
Inductive effect : Type :=
| Throws (e : error)
| Posts (a : Client.api) (path : string) (b : body).

Definition wrap (i : idOrIds) : list Z :=
  match i with
  | IdArray l => l
  | OneId n => [n]
  end.

Definition not_in_hml (quality : string) : error :=
  Error ("Quality type '" +:+ quality +:+ "' is not in [h,m,l]").

(** Lines 196-205. *)
Definition getMusicUrlW (i : idOrIds) (quality : string) : effect :=
  if negb (truthy (QualityMap quality)) then Throws (not_in_hml quality)
  else Posts Client.W "/song/enhance/player/url"
         {| ids := wrap i; br := QualityMap quality |}.

(** Lines 213-222. *)
Definition getMusicUrlL (i : idOrIds) (quality : string) : effect :=
  if negb (truthy (QualityMap quality)) then Throws (not_in_hml quality)
  else Posts Client.L "/api/song/enhance/player/url"
         {| ids := wrap i; br := QualityMap quality |}.

(** Lines 230-239. *)
Definition getMusicUrlE (i : idOrIds) (quality : string) : effect :=
  if negb (truthy (QualityMap quality)) then Throws (not_in_hml quality)
  else Posts Client.E "/song/enhance/player/url"
         {| ids := wrap i; br := QualityMap quality |}.

End MusicUrl.


(** ** The url of the local music server: [getMusicUrlLocal] *)

Module Url.

(** The characters [querystring.escape] leaves as they are: letters, digits
    and [- _ . ! ~ * ' ( )]. *)
Definition noEscape (c : ascii) : bool :=
  let n := N_of_ascii c in
  ((65 <=? n) && (n <=? 90) || (97 <=? n) && (n <=? 122) ||
   (48 <=? n) && (n <=? 57))%N
  || bool_decide (c ∈ ["-"; "_"; "."; "!"; "~"; "*"; "'"; "("; ")"]%char).

(** One hexadecimal digit, upper case. *)
Definition hexDigit (n : N) : ascii :=
  ascii_of_N (if (n <? 10)%N then 48 + n else 55 + n)%N.

(** [hexTable[c]]: the byte [c] as ["%XX"]. *)
Definition hexTable (c : ascii) : string :=
  let n := N_of_ascii c in
  String "%" (String (hexDigit (n / 16)) (String (hexDigit (n mod 16)) "")).

(** [querystring.escape]. *)
Fixpoint qsEscape (s : string) : string :=
  match s with
  | EmptyString => ""
  | String c rest =>
      if noEscape c then String c (qsEscape rest)
      else hexTable c +:+ qsEscape rest
  end.

(** [stringifyPrimitive] of [querystring]. *)
Definition stringifyPrimitive (v : value) : string :=
  match v with
  | VStr s => s
  | VNum n => string_of_number n
  | VBool true => "true"
  | VBool false => "false"
  | _ => ""
  end.

(** [querystring.stringify(obj)] for an object whose properties, in
    insertion order, are [obj] and hold no array. *)
Fixpoint stringify (obj : list (string * value)) : string :=
  match obj with
  | [] => ""
  | (k, v) :: rest =>
      qsEscape k +:+ "=" +:+ qsEscape (stringifyPrimitive v) +:+
      match rest with
      | [] => ""
      | _ => "&" +:+ stringify rest
      end
  end.

(** [s.replace(/#/g, '%23')]. *)
Fixpoint replaceHash (s : string) : string :=
  match s with
  | EmptyString => ""
  | String c rest =>
      if Ascii.eqb c "#" then "%23" +:+ replaceHash rest
      else String c (replaceHash rest)
  end.

(** The escaping of [pathname] by [url.format]: [#] and [?]. *)
Fixpoint escapePathname (s : string) : string :=
  match s with
  | EmptyString => ""
  | String c rest =>
      if Ascii.eqb c "#" then "%23" +:+ escapePathname rest
      else if Ascii.eqb c "?" then "%3F" +:+ escapePathname rest
      else String c (escapePathname rest)
  end.

Fixpoint contains (c : ascii) (s : string) : bool :=
  match s with
  | EmptyString => false
  | String d rest => Ascii.eqb c d || contains c rest
  end.

(** Every character of [s] passes [ok]. *)
Fixpoint allChars (ok : ascii -> bool) (s : string) : bool :=
  match s with
  | EmptyString => true
  | String d rest => ok d && allChars ok rest
  end.

Fixpoint lastChar (s : string) : option ascii :=
  match s with
  | EmptyString => None
  | String c EmptyString => Some c
  | String _ rest => lastChar rest
  end.

(** The protocols after which [url.format] writes [//]. *)
Definition slashedProtocol (p : string) : bool :=
  bool_decide (p ∈ ["http"; "http:"; "https"; "https:"; "ftp"; "ftp:";
                    "gopher"; "gopher:"; "file"; "file:"; "ws"; "ws:";
                    "wss"; "wss:"]).

(** The fields of the object [getMusicUrlLocal] hands to [url.format]; the
    others ([auth], [host], [search], [hash], [slashes]) are undefined. *)
Record urlObject : Type := {
  protocol : string;
  hostname : string;
  port : value;
  pathname : string;
  query : list (string * value)
}.

(** [url.format(urlObject)] of Node.js, for those fields (what it does for a
    [file:] url without a host is left out: the hostname is given). *)
Definition format (u : urlObject) : string :=
  let host :=
    if truthy (VStr (hostname u)) then
      (if contains ":" (hostname u) then "[" +:+ hostname u +:+ "]"
       else hostname u) +:+
      (if truthy (port u) then ":" +:+ stringifyPrimitive (port u) else "")
    else "" in
  let query := stringify (query u) in
  let search := if truthy (VStr query) then "?" +:+ query else "" in
  let protocol :=
    match lastChar (protocol u) with
    | None => ""
    | Some c => if Ascii.eqb c ":" then protocol u else protocol u +:+ ":"
    end in
  let pathname := escapePathname (pathname u) in
  let '(host, pathname) :=
    if slashedProtocol protocol && truthy (VStr host) then
      ("//" +:+ host,
       match pathname with
       | EmptyString => ""
       | String c _ => if Ascii.eqb c "/" then pathname else "/" +:+ pathname
       end)
    else (host, pathname) in
  protocol +:+ host +:+ pathname +:+ replaceHash search.

(** [Types.MusicUrlLocalRes]. *)
Record localRes : Type := { url : string }.

(** Lines 248-258. [musicServerPort] is the module variable of line 30: [0]
    until the promise of [musicServer.listen()] resolves, the port of the
    server afterwards. *)
Definition getMusicUrlLocal (musicServerPort : Z) (id : Z) (quality : string)
    (ignoreCache : bool) : promise localRes :=
  Resolved {| url := format {|
    protocol := "http:";
    hostname := "localhost";
    port := VNum musicServerPort;
    pathname := "/music";
    query :=
      if ignoreCache
      then [("id", VNum id); ("quality", VStr quality);
            ("ignoreCache", VBool ignoreCache)]
      else [("id", VNum id); ("quality", VStr quality)]
  |} |}.

(** Reading a url back: the part after the first [?], cut at every [&], each
    field cut at its first [=]. *)
Fixpoint splitOn (c : ascii) (s : string) : list string :=
  match s with
  | EmptyString => [""]
  | String d rest =>
      if Ascii.eqb c d then "" :: splitOn c rest
      else match splitOn c rest with
           | [] => [String d ""]
           | w :: ws => String d w :: ws
           end
  end.

Fixpoint cutAt (c : ascii) (s : string) : option (string * string) :=
  match s with
  | EmptyString => None
  | String d rest =>
      if Ascii.eqb c d then Some ("", rest)
      else match cutAt c rest with
           | Some (a, b) => Some (String d a, b)
           | None => None
           end
  end.

(** The value of the query parameter [key] of [url], if it has one. *)
Definition queryParam (key : string) (u : string) : option string :=
  match cutAt "?" u with
  | None => None
  | Some (_, search) =>
      match filter (fun kv => bool_decide (kv.1 = key))
                   (omap (cutAt "=") (splitOn "&" search)) with
      | [] => None
      | kv :: _ => Some kv.2
      end
  end.

End Url.


(** ** The cache directories: [getDiskUsage], [removeRecursive],
    [getDataSize], [clearCache] *)

Module Disk.

(** Whether a save is writing a file at this moment. [lstat] does not
    report it; the model carries it to say which files a walk meets. *)
Inductive writeState : Type := Partial | Complete.

(** The permissions of a directory that the walk depends on: [r] to list it
    ([readdir]), [x] to reach its entries ([lstat]), [w] and [x] to remove
    one ([unlink]). *)
Record perm : Type := { r : bool; w : bool; x : bool }.

(** What is at a path. [Special] is anything [lstat] reports as neither a
    file, a symbolic link nor a directory (socket, FIFO, device). *)
#[local] Set Warnings "-register-all".
Inductive node : Type :=
| File (size : Z) (st : writeState)
| Symlink (size : Z)
| Dir (p : perm) (entries : list (string * node))
| Special.

Definition EACCES : error := SystemError "EACCES".
Definition ENOENT : error := SystemError "ENOENT".

(** [Promise.all]: rejected as soon as one of the promises is (when several
    are, the model takes the first of the list), resolved when all are,
    never settled otherwise. *)
Fixpoint all {A : Type} (ps : list (promise A)) : promise (list A) :=
  match ps with
  | [] => Resolved []
  | p :: rest =>
      match p, all rest with
      | Rejected e, _ => Rejected e
      | _, Rejected e => Rejected e
      | Resolved a, Resolved l => Resolved (a :: l)
      | _, _ => Pending
      end
  end.

(** [sizes.reduce((a, b) => a + b, 0)]. *)
Definition reduceSum (sizes : list Z) : Z := fold_left Z.add sizes 0.

(** Lines 478-494. [pathname] is given by the node it names; [searchable]
    says whether [lstat(pathname)] is allowed (the directory that holds
    [pathname] has [x]). [path.join(pathname, file)] names the entry [file]
    of the directory. The promise of [readdir] has no [catch]: when it
    rejects, neither [resolve] nor [reject] is called. The same holds when
    the stat is of none of the three kinds. *)
Fixpoint getDiskUsage (searchable : bool) (n : node) : promise Z :=
  if negb searchable then Rejected EACCES
  else
    match n with
    | File size _ | Symlink size => Resolved size
    | Dir p entries =>
        if r p then
          match all (map (fun e => getDiskUsage (x p) e.2) entries) with
          | Resolved sizes => Resolved (reduceSum sizes)
          | Rejected e => Rejected e
          | Pending => Pending
          end
        else Pending
    | Special => Pending
    end.

(** Lines 496-509: how the promise settles, and what is left at [pathname]
    when every call of the walk has ended ([None]: the name is gone). A
    rejection does not stop the calls on the other entries. *)
Fixpoint removeRecursive (searchable writable : bool) (n : node)
    : promise unit * option node :=
  if negb searchable then (Rejected EACCES, Some n)
  else
    match n with
    | File _ _ | Symlink _ =>
        if writable then (Resolved tt, None) else (Rejected EACCES, Some n)
    | Dir p entries =>
        if r p then
          let runs :=
            map (fun e => (e.1, removeRecursive (x p) (w p && x p) e.2))
                entries in
          (match all (map (fun run => run.2.1) runs) with
           | Resolved _ => Resolved tt
           | Rejected e => Rejected e
           | Pending => Pending
           end,
           Some (Dir p (omap (fun run => pair run.1 <$> run.2.2) runs)))
        else (Pending, Some n)
    | Special => (Pending, Some n)
    end.

(** ['all'|'music'|'lyric']. *)
Inductive cacheType : Type := All | Music | Lyric.

(** [CachePath], lines 21-25, relative to [dataPath]. *)
Definition CachePath (type : cacheType) : list string :=
  match type with
  | All => []
  | Music => ["musicCache"]
  | Lyric => ["lyricCache"]
  end.

(** The entry [name] of a directory. *)
Fixpoint entry (name : string) (entries : list (string * node))
    : option node :=
  match entries with
  | [] => None
  | (k, n) :: rest => if String.eqb k name then Some n else entry name rest
  end.

(** What [lstat] finds at a path below [n], which is reachable: an error,
    or a node and whether its directory lets it be removed. *)
Fixpoint resolve (path : list string) (writable : bool) (n : node)
    : error + (bool * node) :=
  match path with
  | [] => inr (writable, n)
  | name :: rest =>
      match n with
      | Dir p entries =>
          if x p then
            match entry name entries with
            | Some c => resolve rest (w p) c
            | None => inl ENOENT
            end
          else inl EACCES
      | _ => inl (SystemError "ENOTDIR")
      end
  end.

(** [{ok: boolean; size: number; msg?: string}]; [msg] is the [stack] of
    the error that was caught, given here by the error. *)
Record sizeRes : Type := { ok : bool; size : Z; msg : option error }.

(** [{ok: boolean; msg?: string}]. *)
Record clearRes : Type := { cleared : bool; why : option error }.

(** [await p] inside [try { ... } catch (e) { ... }]. *)
Definition tryAwait {A B : Type} (p : promise A) (then_ : A -> B)
    (catch : error -> B) : promise B :=
  match p with
  | Resolved a => Resolved (then_ a)
  | Rejected e => Resolved (catch e)
  | Pending => Pending
  end.

(** [getDiskUsage(CachePath[type])] on the tree below [dataPath]. *)
Definition getDiskUsageAt (data : node) (path : list string) : promise Z :=
  match resolve path true data with
  | inl e => Rejected e
  | inr (_, n) => getDiskUsage true n
  end.

Definition removeRecursiveAt (data : node) (path : list string)
    : promise unit :=
  match resolve path true data with
  | inl e => Rejected e
  | inr (writable, n) => (removeRecursive true writable n).1
  end.

(** Lines 516-529. *)
Definition getDataSize (data : node) (type : cacheType) : promise sizeRes :=
  tryAwait (getDiskUsageAt data (CachePath type))
    (fun size => {| ok := true; size := size; msg := None |})
    (fun e => {| ok := false; size := 0; msg := Some e |}).

(** Lines 535-545. *)
Definition clearCache (data : node) (type : cacheType) : promise clearRes :=
  tryAwait (removeRecursiveAt data (CachePath type))
    (fun _ => {| cleared := true; why := None |})
    (fun e => {| cleared := false; why := Some e |}).

(** The specification's account of the size: the [lstat] size of a file or
    of a symbolic link, the sum over the entries for a directory, whose own
    size is not counted. *)
Fixpoint specUsage (n : node) : Z :=
  match n with
  | File size _ | Symlink size => size
  | Dir _ entries => foldr (fun e acc => specUsage e.2 + acc) 0 entries
  | Special => 0
  end.

(** A tree of regular files, symbolic links and directories only, on which
    no call of the walk fails: every directory can be listed and searched
    and, with [writable], changed. *)
Fixpoint plain (writable : bool) (n : node) : bool :=
  match n with
  | File _ _ | Symlink _ => true
  | Dir p entries =>
      r p && x p && (negb writable || w p) &&
      forallb (fun e => plain writable e.2) entries
  | Special => false
  end.

(** A tree without its files and links: the directories alone. *)
Fixpoint skeleton (n : node) : option node :=
  match n with
  | File _ _ | Symlink _ => None
  | Dir p entries =>
      Some (Dir p (omap (fun e => pair e.1 <$> skeleton e.2) entries))
  | Special => Some Special
  end.

(** The paths, below [n], of the files that a save is writing. *)
Fixpoint partialPaths (n : node) : list (list string) :=
  match n with
  | File _ Partial => [[]]
  | File _ Complete | Symlink _ | Special => []
  | Dir _ entries =>
      flat_map (fun e => map (cons e.1) (partialPaths e.2)) entries
  end.

Definition partialLeft (rest : option node) : list (list string) :=
  from_option partialPaths [] rest.

(** Sample trees. *)
Definition rwx : perm := {| r := true; w := true; x := true |}.

(** A music cache with a subdirectory and a link. *)
Definition sampleMusic : node :=
  Dir rwx [("12345h", File 4096 Complete);
           ("67890m", Symlink 11);
           ("old", Dir rwx [("1l", File 300 Complete)])].

(** A data directory with both caches. *)
Definition sampleData : node :=
  Dir rwx [("musicCache", sampleMusic);
           ("lyricCache", Dir rwx [("12345", File 25 Complete)])].

(** A music cache in which the save of [67890m] is under way. *)
Definition savingMusic : node :=
  Dir rwx [("12345h", File 4096 Complete);
           ("67890m", File 1024 Partial)].

(** A data directory whose music cache holds a directory that cannot be
    listed (mode 0300). *)
Definition lockedData : node :=
  Dir rwx
    [("musicCache",
      Dir rwx [("12345h", File 4096 Complete);
               ("old", Dir {| r := false; w := true; x := true |}
                         [("1l", File 300 Complete)])])].

End Disk.


(** ** Lyrics: [getMusicLyric], [getMusicLyricCached] *)

Module Lyric.

(** A line of a parsed lyric. [timestamp] is a finite number; the code only
    compares timestamps, and the model keeps their order: the integer is the
    timestamp counted in units of 2^-1074, of which every finite double is a
    multiple. [trans] is the property the merge adds. *)
Record line : Type := {
  timestamp : Z;
  content : string;
  trans : option string
}.

(** What [Lrc.parse] returns. *)
Record lrc : Type := {
  info : list (string * string);
  lyrics : list line
}.

(** [MusicLyric.byTimestamp], lines 356-360: the sign of the difference of
    two finite doubles is the sign of the difference of the integers. *)
Definition byTimestamp (a b : line) : Z := timestamp a - timestamp b.

(** [Array.prototype.sort(compare)]. The sort of the language is stable,
    which fixes its result for a consistent [compare]; it is written here
    as an insertion from the right. *)
Fixpoint insertBy (compare : line -> line -> Z) (a : line) (l : list line)
    : list line :=
  match l with
  | [] => [a]
  | b :: rest =>
      if compare a b <=? 0 then a :: b :: rest
      else b :: insertBy compare a rest
  end.

Definition sort (compare : line -> line -> Z) (l : list line) : list line :=
  foldr (insertBy compare) [] l.

(** The part of the response of [/song/lyric] that is read. [lyric] is
    [None] when the property is missing or [null]. *)
Record lyricField : Type := { lyric : option string }.

Record response : Type := {
  tmp_lrc : option lyricField;
  tmp_tlyric : option lyricField;
  tmp_lyricUser : value;
  tmp_transUser : value
}.

(** [tmp.lrc && tmp.lrc.lyric]: the string when the test passes. *)
Definition present (f : option lyricField) : option string :=
  match f with
  | Some {| lyric := Some s |} => if truthy (VStr s) then Some s else None
  | _ => None
  end.

(** [mlrc], lines 383-387. *)
Record merged : Type := {
  m_info : list (string * string);
  m_transInfo : list (string * string);
  m_lyrics : list line
}.

(** [Types.MusicLyricRes]: a property is [None] until it is assigned. *)
Record result : Type := {
  r_lrc : option lrc;
  r_txtLyric : option string;
  r_lyricUser : option value;
  r_transUser : option value;
  r_mlrc : option merged
}.

(** [mlrc.lyrics[i].trans = tlrc.lyrics[j].content]. *)
Definition setTrans (l : line) (t : string) : line :=
  {| timestamp := timestamp l; content := content l; trans := Some t |}.

(** The loop of lines 388-399, from indices [i] and [j] on: [ml] and [tl]
    are the lines from there to the end, the result is what [ml] holds when
    the loop ends. *)
Fixpoint mergeLoop (ml : list line) : list line -> list line :=
  match ml with
  | [] => fun _ => []
  | m :: ml' =>
      fix skip (tl : list line) : list line :=
        match tl with
        | [] => m :: ml'
        | t :: tl' =>
            if timestamp m =? timestamp t
            then setTrans m (content t) :: mergeLoop ml' tl'
            else if timestamp m <? timestamp t
            then m :: mergeLoop ml' tl
            else skip tl'
        end
  end.

Section GetMusicLyric.

(** [Lrc.parse] of [lrc-kit]. *)
Variable parse : string -> lrc.

(** Lines 368-378: [result] after the first [if]. *)
Definition originalPart (tmp : response) : result :=
  match present (tmp_lrc tmp) with
  | Some text =>
      let lrc := parse text in
      if 0 <? Z.of_nat (length (lyrics lrc)) then
        {| r_lrc := Some {| info := info lrc;
                            lyrics := sort byTimestamp (lyrics lrc) |};
           r_txtLyric := None;
           r_lyricUser := Some (tmp_lyricUser tmp);
           r_transUser := None; r_mlrc := None |}
      else
        {| r_lrc := None;
           r_txtLyric := Some text;
           r_lyricUser := Some (tmp_lyricUser tmp);
           r_transUser := None; r_mlrc := None |}
  | None =>
      {| r_lrc := None; r_txtLyric := None; r_lyricUser := None;
         r_transUser := None; r_mlrc := None |}
  end.

(** Lines 379-402, after [tmp] arrived. [mlrc.lyrics] is a copy of the
    array [result.lrc.lyrics], not of its lines: the loop writes [trans]
    into lines that both arrays hold, so both end with the same lines. *)
Definition translatedPart (tmp : response) (res : result)
    : error + result :=
  match present (tmp_tlyric tmp) with
  | Some ttext =>
      let tlrc := sort byTimestamp (lyrics (parse ttext)) in
      match r_lrc res with
      | None => inl (TypeError "Cannot read property 'info' of undefined")
      | Some lrc =>
          let lines := mergeLoop (lyrics lrc) tlrc in
          inr {| r_lrc := Some {| info := info lrc; lyrics := lines |};
                 r_txtLyric := r_txtLyric res;
                 r_lyricUser := r_lyricUser res;
                 r_transUser := Some (tmp_transUser tmp);
                 r_mlrc := Some {| m_info := info lrc;
                                   m_transInfo := info (parse ttext);
                                   m_lyrics := lines |} |}
      end
  | None => inr res
  end.

(** [export async function getMusicLyric(id)], lines 366-403, given how
    [client.postE('/song/lyric', { id, lv: 0, tv: 0, kv: 0 })] settles. *)
Definition getMusicLyric (reply : promise response) : promise result :=
  match reply with
  | Resolved tmp =>
      match translatedPart tmp (originalPart tmp) with
      | inr res => Resolved res
      | inl e => Rejected e
      end
  | Rejected e => Rejected e
  | Pending => Pending
  end.

(** What [getMusicLyricCached] does outside itself, in order. *)
Inductive action : Type :=
| Has (key : string)
| ReadFile (pathname : string)
| Fetch (id : Z)
| Save (key : string) (lyric : result).

(** [lyricCache], as [cache.js] (not in the tree) serves it to this file:
    the answer of [has], and the path of [fullPath], which is called on the
    id itself, not on its string, and may throw. *)
Variable has : string -> promise bool.
Variable fullPath : value -> error + string.
(** [fsPromises.readFile(pathname, 'utf8')] and [JSON.parse]. *)
Variable readFile : string -> promise string.
Variable JSON_parse : string -> error + result.
(** The reply of the server to the lyric request for an id. *)
Variable postE_lyric : Z -> promise response.

(** The cache hit, lines 413-415. *)
Definition readCached (id : Z) : promise result * list action :=
  match fullPath (VNum id) with
  | inl e => (Rejected e, [])
  | inr pathname =>
      (match readFile pathname with
       | Resolved text =>
           match JSON_parse text with
           | inr v => Resolved v
           | inl e => Rejected e
           end
       | Rejected e => Rejected e
       | Pending => Pending
       end, [ReadFile pathname])
  end.

(** Lines 410-421: the promise and the actions taken. [save] is not
    awaited. *)
Definition getMusicLyricCached (id : Z) (ignoreCache : bool)
    : promise result * list action :=
  let key := string_of_number id in
  match has key with
  | Rejected e => (Rejected e, [Has key])
  | Pending => (Pending, [Has key])
  | Resolved hasCache =>
      if hasCache && negb ignoreCache then
        ((readCached id).1, Has key :: (readCached id).2)
      else
        match getMusicLyric (postE_lyric id) with
        | Resolved lyric =>
            (Resolved lyric, [Has key; Fetch id; Save key lyric])
        | Rejected e => (Rejected e, [Has key; Fetch id])
        | Pending => (Pending, [Has key; Fetch id])
        end
  end.

End GetMusicLyric.

(** A list of lines in the order of their timestamps, equal ones allowed. *)
Definition sortedByTimestamp (l : list line) : Prop :=
  StronglySorted Z.le (map timestamp l).

(** A parser to run the functions on: one line for each character of the
    text, at the time that is the code of the character. *)
Definition charLines (text : string) : lrc :=
  {| info := [];
     lyrics := map (fun c => {| timestamp := Z.of_N (N_of_ascii c);
                                content := String c "";
                                trans := None |})
                   (list_ascii_of_string text) |}.

(** A response with the lyric ["ba"] and the translation ["b"]. *)
Definition sampleResponse : response :=
  {| tmp_lrc := Some {| lyric := Some "ba" |};
     tmp_tlyric := Some {| lyric := Some "b" |};
     tmp_lyricUser := VUndefined;
     tmp_transUser := VUndefined |}.

End Lyric.

(** ** The streaming server: one fetch for a cache key at a time *)

Module StreamingServer.

(** Modelled from the spec: [musicServer.js] is not in the source tree.
    Section 3 gives the request of a local connection: the track, the
    quality, whether the cache is to be bypassed. *)
Record request : Type := {
  trackId : Z;
  quality : string;
  ignoreCache : bool
}.

(** Modelled from the spec: section 4.4, step 1, "compute cache key from
    (trackId, quality)"; the glossary asks for a deterministic string, taken
    here as the id followed by the quality. *)
Definition cacheKey (req : request) : string :=
  string_of_number (trackId req) +:+ quality req.

(** What a connection is answered. *)
Inductive answer : Type :=
| FromCache (key : string)
| Fetched (key : string)
| FetchError (key : string).

(** Modelled from the spec: the state of the server. [complete] holds the
    keys that the disk cache reports COMPLETE; [inflight] is the
    "process-wide map from cache key to an in-flight fetch coordinator",
    which gives for a key the connections that share its fetch, the
    coordinator first; [upstream] lists the upstream fetches that were
    started; [answers] lists what was sent to which connection. *)
Record state : Type := {
  complete : gset string;
  inflight : gmap string (list nat);
  upstream : list string;
  answers : list (nat * answer)
}.

(** What happens, one thing at a time: a request of a connection reaches
    the handler, or the download for a key ends, well or not. *)
Inductive event : Type :=
| Arrive (conn : nat) (req : request)
| Finish (key : string) (ok : bool).

(** Modelled from the spec: section 4.4, steps 2 and 3, for one request.
    The lookup in the map and the insertion are one step, the "atomic
    check-and-insert" of section 5. *)
Definition handle (conn : nat) (req : request) (s : state) : state :=
  let key := cacheKey req in
  if negb (ignoreCache req) && bool_decide (key ∈ complete s) then
    {| complete := complete s; inflight := inflight s;
       upstream := upstream s;
       answers := answers s ++ [(conn, FromCache key)] |}
  else
    match inflight s !! key with
    | Some waiters =>
        {| complete := complete s;
           inflight := <[key := waiters ++ [conn]]> (inflight s);
           upstream := upstream s;
           answers := answers s |}
    | None =>
        {| complete := complete s;
           inflight := <[key := [conn]]> (inflight s);
           upstream := upstream s ++ [key];
           answers := answers s |}
    end.

(** Modelled from the spec: section 4.4, step 3, the end of a download: "on
    completion marks the entry COMPLETE and releases all waiters (success
    or failure, failure purges the staged file and reports a fetch error to
    every waiter)". *)
Definition finish (key : string) (ok : bool) (s : state) : state :=
  match inflight s !! key with
  | None => s
  | Some waiters =>
      {| complete := if ok then {[key]} ∪ complete s else complete s;
         inflight := delete key (inflight s);
         upstream := upstream s;
         answers :=
           answers s ++
           map (fun conn =>
                  (conn, if ok then Fetched key else FetchError key))
               waiters |}
  end.

Definition step (s : state) (e : event) : state :=
  match e with
  | Arrive conn req => handle conn req s
  | Finish key ok => finish key ok s
  end.

Definition run (events : list event) (s : state) : state :=
  fold_left step events s.

(** Whether an event ends the download for [key]. *)
Definition finishes (key : string) (e : event) : bool :=
  match e with
  | Finish k _ => bool_decide (k = key)
  | Arrive _ _ => false
  end.

(** The connections whose requests for [key], among the events, the cache
    does not serve, when [cached] says whether [key] is COMPLETE. *)
Fixpoint missing (key : string) (cached : bool) (events : list event)
    : list nat :=
  match events with
  | [] => []
  | Arrive conn req :: rest =>
      if bool_decide (cacheKey req = key) &&
         negb (negb (ignoreCache req) && cached)
      then conn :: missing key cached rest
      else missing key cached rest
  | Finish _ _ :: rest => missing key cached rest
  end.

(** The number of upstream fetches for [key]. *)
Definition fetches (key : string) (s : state) : nat :=
  length (filter (fun k => k = key) (upstream s)).

(** A server that has just started, and three requests for one track. *)
Definition idle : state :=
  {| complete := ∅; inflight := ∅; upstream := []; answers := [] |}.

Definition threeRequests : list event :=
  [Arrive 1 {| trackId := 12345; quality := "h"; ignoreCache := false |};
   Arrive 2 {| trackId := 12345; quality := "h"; ignoreCache := false |};
   Arrive 3 {| trackId := 12345; quality := "h"; ignoreCache := true |}].

End StreamingServer.

(** ** The codec of the three wire variants *)

Module Codec.

(** Modelled from the spec: the codec ([crypto.js], used by
    [httpClient.js]) is not in the source tree. Section 4.1 and the glossary
    name a symmetric block cipher used in electronic-codebook and in
    cipher-block-chaining mode. The modes are written out below over blocks
    of 16 bytes, with the padding that makes a message a whole number of
    blocks; the cipher on one block is a parameter. *)
Definition blockSize : nat := 16.

Definition xorByte (a b : ascii) : ascii :=
  match a, b with
  | Ascii a0 a1 a2 a3 a4 a5 a6 a7, Ascii b0 b1 b2 b3 b4 b5 b6 b7 =>
      Ascii (xorb a0 b0) (xorb a1 b1) (xorb a2 b2) (xorb a3 b3)
            (xorb a4 b4) (xorb a5 b5) (xorb a6 b6) (xorb a7 b7)
  end.

Definition xorBytes (a b : list ascii) : list ascii := zip_with xorByte a b.

(** Modelled from the spec: padding to whole blocks (PKCS#7: [n] bytes of
    value [n], with [n] from 1 to 16). *)
Definition pad (m : list ascii) : list ascii :=
  let n := (blockSize - length m mod blockSize)%nat in
  m ++ replicate n (ascii_of_nat n).

Definition unpad (m : list ascii) : option (list ascii) :=
  match last m with
  | None => None
  | Some c =>
      let n := nat_of_ascii c in
      if (1 <=? n)%nat && (n <=? blockSize)%nat && (n <=? length m)%nat &&
         forallb (Ascii.eqb c) (drop (length m - n) m)
      then Some (take (length m - n) m)
      else None
  end.

(** [f] on each of the first [n] blocks of [m]. *)
Fixpoint mapBlocks (n : nat) (f : list ascii -> list ascii)
    (m : list ascii) : list ascii :=
  match n with
  | O => []
  | S n' => f (take blockSize m) ++ mapBlocks n' f (drop blockSize m)
  end.

(** Chaining: each block is mixed with the cipher block before it. *)
Fixpoint chainEncrypt (n : nat) (f : list ascii -> list ascii)
    (prev m : list ascii) : list ascii :=
  match n with
  | O => []
  | S n' =>
      let c := f (xorBytes (take blockSize m) prev) in
      c ++ chainEncrypt n' f c (drop blockSize m)
  end.

Fixpoint chainDecrypt (n : nat) (g : list ascii -> list ascii)
    (prev c : list ascii) : list ascii :=
  match n with
  | O => []
  | S n' =>
      let b := take blockSize c in
      xorBytes (g b) prev ++ chainDecrypt n' g b (drop blockSize c)
  end.

(** Modelled from the spec: "hex ... encode as required"; two upper-case
    digits for a byte. *)
Definition hexByte (c : ascii) : string :=
  let n := N_of_ascii c in
  String (Url.hexDigit (n / 16)) (String (Url.hexDigit (n mod 16)) "").

Fixpoint hexEncode (m : list ascii) : string :=
  match m with
  | [] => ""
  | c :: rest => hexByte c +:+ hexEncode rest
  end.

Definition hexValue (c : ascii) : option N :=
  let n := N_of_ascii c in
  if ((48 <=? n) && (n <=? 57))%N then Some (n - 48)%N
  else if ((65 <=? n) && (n <=? 70))%N then Some (n - 55)%N
  else if ((97 <=? n) && (n <=? 102))%N then Some (n - 87)%N
  else None.

Fixpoint hexDecode (s : string) : option (list ascii) :=
  match s with
  | EmptyString => Some []
  | String h (String l rest) =>
      match hexValue h, hexValue l, hexDecode rest with
      | Some a, Some b, Some m => Some (ascii_of_N (16 * a + b) :: m)
      | _, _, _ => None
      end
  | String _ EmptyString => None
  end.

(** [s] without the prefix [p], if it starts with it. *)
Fixpoint stripPrefix (p s : string) : option string :=
  match p, s with
  | EmptyString, _ => Some s
  | String a p', String b s' =>
      if Ascii.eqb a b then stripPrefix p' s' else None
  | String _ _, EmptyString => None
  end.

(** [s] cut at the last [c]. *)
Fixpoint cutLast (c : ascii) (s : string) : option (string * string) :=
  match s with
  | EmptyString => None
  | String d rest =>
      match cutLast c rest with
      | Some (a, b) => Some (String d a, b)
      | None => if Ascii.eqb c d then Some ("", rest) else None
      end
  end.

(** The values [JSON.stringify] writes. *)
#[local] Set Warnings "-register-all".
Inductive json : Type :=
| JNull
| JBool (b : bool)
| JNumber (n : Z)
| JString (s : string)
| JArray (items : list json)
| JObject (fields : list (string * json)).

Definition field (name : string) (v : json) : option json :=
  match v with
  | JObject fields =>
      snd <$> List.find (fun kv => String.eqb kv.1 name) fields
  | _ => None
  end.

Section Variants.

(** The cipher on one block, under a key. *)
Variable encryptBlock decryptBlock : list ascii -> list ascii -> list ascii.
(** The hash of the signature, as text. *)
Variable digest : string -> string.
(** [JSON.stringify] and [JSON.parse]. *)
Variable stringify : json -> string.
Variable parseJSON : string -> option json.
(** The fixed keys, the fixed initialization vector and the constant of the
    signature: constants of the missing file. *)
Variable eapiKey linuxKey presetKey iv : list ascii.
Variable signConstant : string.
(** The key the process draws at random for the WEB variant, and the
    public-key encoding of it. *)
Variable randomKey : list ascii.
Variable publicEncrypt : list ascii -> string.

Definition ecbEncrypt (key m : list ascii) : list ascii :=
  let p := pad m in
  mapBlocks (length p / blockSize) (encryptBlock key) p.

Definition ecbDecrypt (key c : list ascii) : option (list ascii) :=
  if (length c mod blockSize =? 0)%nat
  then unpad (mapBlocks (length c / blockSize) (decryptBlock key) c)
  else None.

Definition cbcEncrypt (key m : list ascii) : list ascii :=
  let p := pad m in
  chainEncrypt (length p / blockSize) (encryptBlock key) iv p.

Definition cbcDecrypt (key c : list ascii) : option (list ascii) :=
  if (length c mod blockSize =? 0)%nat
  then unpad (chainDecrypt (length c / blockSize) (decryptBlock key) iv c)
  else None.

(** Modelled from the spec: "build a signature string from path, a fixed
    constant, the JSON body, and an empty token". *)
Definition signature (path text : string) : string :=
  path +:+ signConstant +:+ text +:+ "".

(** Modelled from the spec: the ENCRYPTED variant, "hash it, concatenate
    path-body-digest, encrypt the concatenation with a symmetric block
    cipher in electronic-codebook mode using a fixed key, hex ... encode
    ..., and emit a single params form field". *)
Definition encodeEApi (path : string) (params : json) : string :=
  let text := stringify params in
  let data := path +:+ "-" +:+ text +:+ "-" +:+ digest (signature path text) in
  hexEncode (ecbEncrypt eapiKey (list_ascii_of_string data)).

(** Modelled from the spec: the way back that section 8 asks for, "the eapi
    signature/encrypt/decrypt cycle must be exactly invertible with the
    fixed key": decrypt, take [path-body-digest] apart, check the digest,
    parse the body. *)
Definition openEApi (path wire : string) : option json :=
  c ← hexDecode wire;
  m ← ecbDecrypt eapiKey c;
  rest ← stripPrefix (path +:+ "-") (string_of_list_ascii m);
  '(text, sum) ← cutLast "-" rest;
  if String.eqb sum (digest (signature path text)) then parseJSON text
  else None.

(** Modelled from the spec: the decoding of a response of the ENCRYPTED
    variant, "decoding reverses the same cipher with the same fixed key and
    parses the result as JSON. If decoding fails ..., the response is
    treated as plain JSON as a fallback". *)
Definition decodeEApi (raw : list ascii) : option json :=
  match ecbDecrypt eapiKey raw ≫= (fun m => parseJSON (string_of_list_ascii m))
  with
  | Some v => Some v
  | None => parseJSON (string_of_list_ascii raw)
  end.

(** Modelled from the spec: the LINUX variant, "serialize {method, url,
    params} as JSON, encrypt with the block cipher in electronic-codebook
    mode using a distinct fixed key, emit a single eparams field". *)
Definition envelope (url : string) (params : json) : json :=
  JObject [("method", JString "POST"); ("url", JString url);
           ("params", params)].

Definition encodeLinux (url : string) (params : json) : string :=
  hexEncode (ecbEncrypt linuxKey
               (list_ascii_of_string (stringify (envelope url params)))).

Definition openLinux (wire : string) : option json :=
  c ← hexDecode wire;
  m ← ecbDecrypt linuxKey c;
  v ← parseJSON (string_of_list_ascii m);
  field "params" v.

(** Modelled from the spec: the WEB variant, "serialize params to JSON;
    encrypt ... in CBC mode using a fixed initialization vector and a
    first-stage fixed key, then re-encrypt the result with a second,
    per-process-random symmetric key; encode the random key itself via
    fixed-exponent public-key encryption ..., producing two form fields
    (params, encSecKey)". *)
Definition encodeWeb (body : json) : string * string :=
  let first := cbcEncrypt presetKey (list_ascii_of_string (stringify body)) in
  (hexEncode (cbcEncrypt randomKey first), publicEncrypt randomKey).

(** The layers of the WEB variant that the process that drew the random
    key can undo; nothing inverts [publicEncrypt]. *)
Definition openWeb (params : string) : option json :=
  c ← hexDecode params;
  first ← cbcDecrypt randomKey c;
  m ← cbcDecrypt presetKey first;
  parseJSON (string_of_list_ascii m).

(** Modelled from the spec: section 9, "a closed tagged union {WEB,
    ENCRYPTED, LINUX} with one encode/decode implementation per tag". The
    wire form is the list of the form fields. *)
Inductive variant : Type := WEB | ENCRYPTED | LINUX.

Definition encode (v : variant) (path : string) (params : json)
    : list (string * string) :=
  match v with
  | WEB =>
      [("params", (encodeWeb params).1); ("encSecKey", (encodeWeb params).2)]
  | ENCRYPTED => [("params", encodeEApi path params)]
  | LINUX => [("eparams", encodeLinux path params)]
  end.

Definition formField (name : string) (form : list (string * string))
    : option string :=
  snd <$> List.find (fun kv => String.eqb kv.1 name) form.

(** The way back from the wire form, layer by layer. *)
Definition decode (v : variant) (path : string)
    (form : list (string * string)) : option json :=
  match v with
  | WEB => formField "params" form ≫= openWeb
  | ENCRYPTED => formField "params" form ≫= openEApi path
  | LINUX => formField "eparams" form ≫= openLinux
  end.

End Variants.

(** A cipher, a hash and a serializer to run the codec on: the block turned
    end to end; a digest of one letter; the text of an integer, or of the
    envelope of the integer 1. *)
Definition toyCipher (key block : list ascii) : list ascii := rev block.

Definition toyDigest (s : string) : string := "D".

Definition toyStringify (v : json) : string :=
  match v with
  | JNumber n => string_of_number n
  | _ => "{}"
  end.

Definition toyParse (s : string) : option json :=
  if String.eqb s "1" then Some (JNumber 1)
  else if String.eqb s "{}" then Some (envelope "/api/x" (JNumber 1))
  else None.

Definition toyKey : list ascii := list_ascii_of_string "0123456789abcdef".

End Codec.

(** ** Requests that only forward to the client *)

Module Api.

(** A call of [client.postW], [client.postE] or [client.postL]: the path
    and the properties of the body, in the order they are written. *)
Record request : Type := {
  api : Client.api;
  path : string;
  body : list (string * value)
}.

(** What a call of an exported function does before the client takes over:
    it throws, or it hands one request to the client. *)
Inductive effect : Type :=
| Throws (e : error)
| Posts (r : request).

(** [\d] and [\w] of a regular expression without the [u] flag. *)
Definition isDigit (c : ascii) : bool :=
  let n := N_of_ascii c in ((48 <=? n) && (n <=? 57))%N.

Definition isWord (c : ascii) : bool :=
  let n := N_of_ascii c in
  ((65 <=? n) && (n <=? 90) || (97 <=? n) && (n <=? 122) ||
   (48 <=? n) && (n <=? 57))%N || Ascii.eqb c "_".

(** [Array.prototype.join], on the strings of the elements. *)
Fixpoint join (sep : string) (items : list string) : string :=
  match items with
  | [] => ""
  | item :: rest =>
      match rest with
      | [] => item
      | _ => item +:+ sep +:+ join sep rest
      end
  end.

(** *** [login], lines 54-65 *)

(** [n] digits, then the end of the string. *)
Fixpoint digitsToEnd (n : nat) (s : string) : bool :=
  match n, s with
  | O, EmptyString => true
  | S n', String c rest => isDigit c && digitsToEnd n' rest
  | _, _ => false
  end.

(** [/^1\d{10}$/.test(acc)]. *)
Definition cellphoneRegexp (acc : string) : bool :=
  match acc with
  | String c rest => Ascii.eqb c "1" && digitsToEnd 10 rest
  | EmptyString => false
  end.

Section Login.

(** [crypto.createHash('md5').update(pwd).digest('hex')]. *)
Variable md5hex : string -> string.

Definition login (acc pwd : string) : effect :=
  let password := md5hex pwd in
  let postBody := [("password", VStr password);
                   ("rememberLogin", VBool true)] in
  if cellphoneRegexp acc then
    Posts {| api := Client.W; path := "/login/cellphone";
             body := ("phone", VStr acc) :: postBody |}
  else
    Posts {| api := Client.W; path := "/login";
             body := ("username", VStr acc) :: postBody |}.

End Login.

(** *** Comments, lines 260-354 *)

(** [\w+$]. *)
Definition wordsToEnd (s : string) : bool :=
  negb (String.eqb s "") && Url.allChars isWord s.

(** [_(?<rid>\w+)$], after [resType] was read. *)
Definition ridToEnd (resType s : string) : option (string * string) :=
  match s with
  | String u rid =>
      if Ascii.eqb u "_" && wordsToEnd rid then Some (resType, rid) else None
  | EmptyString => None
  end.

(** [(?<resType>\d{1,2})_(?<rid>\w+)$]: the quantifier takes two digits
    if it can, and gives one back if the rest does not match. *)
Definition resTypeToEnd (s : string) : option (string * string) :=
  match s with
  | String d1 s1 =>
      if isDigit d1 then
        match
          match s1 with
          | String d2 s2 =>
              if isDigit d2 then ridToEnd (String d1 (String d2 "")) s2
              else None
          | EmptyString => None
          end
        with
        | Some groups => Some groups
        | None => ridToEnd (String d1 "") s1
        end
      else None
  | EmptyString => None
  end.

(** [thread.match(Comments.threadRegexp)], lines 260-262: the groups
    [resType] and [rid] of a match, [None] for [null]. *)
Definition threadRegexp (thread : string) : option (string * string) :=
  match thread with
  | String c0 (String u0 (String c1 (String c2 (String u1 rest)))) =>
      if isWord c0 && Ascii.eqb u0 "_" && isWord c1 && isWord c2 &&
         Ascii.eqb u1 "_"
      then resTypeToEnd rest
      else None
  | _ => None
  end.

(** Reading [groups] of [null]. *)
Definition noGroups : error :=
  TypeError "Cannot read property 'groups' of null".

(** A parameter with a default value. *)
Definition orDefault (arg : option Z) (default : Z) : Z :=
  match arg with
  | Some v => v
  | None => default
  end.

(** Lines 271-274. *)
Definition getComments (thread : string) (limit offset : option Z)
    : effect :=
  match threadRegexp thread with
  | None => Throws noGroups
  | Some (_, rid) =>
      Posts {| api := Client.W;
               path := "/v1/resource/comments/" +:+ thread;
               body := [("rid", VStr rid);
                        ("offset", VNum (orDefault offset 0));
                        ("limit", VNum (orDefault limit 20))] |}
  end.

(** Lines 283-286. *)
Definition getHotComments (thread : string) (limit offset : option Z)
    : effect :=
  match threadRegexp thread with
  | None => Throws noGroups
  | Some (_, rid) =>
      Posts {| api := Client.W;
               path := "/v1/resource/hotcomments/" +:+ thread;
               body := [("rid", VStr rid);
                        ("offset", VNum (orDefault offset 0));
                        ("limit", VNum (orDefault limit 20))] |}
  end.

(** Lines 351-354. *)
Definition replyCommentE (threadId : string) (commentId : Z)
    (content : string) : effect :=
  match threadRegexp threadId with
  | None => Throws noGroups
  | Some (resourceType, _) =>
      Posts {| api := Client.E;
               path := "/v1/resource/comments/reply";
               body := [("threadId", VStr threadId);
                        ("commentId", VNum commentId);
                        ("content", VStr content);
                        ("resourceType", VStr resourceType)] |}
  end.

(** *** Lists of ids written as text *)

(** The double quote, and [JSON.stringify({ id })] for an integer. *)
Definition quote : string := String "034"%char "".

Definition stringifyId (id : Z) : string :=
  "{" +:+ quote +:+ "id" +:+ quote +:+ ":" +:+ string_of_number id +:+ "}".

(** Lines 177-182; the array in the template is joined with commas. *)
Definition getSongDetail (ids : list Z) : effect :=
  Posts {| api := Client.W; path := "/v3/song/detail";
           body := [("c", VStr ("[" +:+ join "," (map stringifyId ids)
                               +:+ "]"))] |}.

(** [JSON.stringify(tracks)] for an array of integers. *)
Definition stringifyTracks (tracks : list Z) : string :=
  "[" +:+ join "," (map string_of_number tracks) +:+ "]".

(** Lines 630-637. *)
Definition manipulatePlaylistTracks (op : string) (pid : Z)
    (tracks : list Z) : effect :=
  Posts {| api := Client.W; path := "/playlist/manipulate/tracks";
           body := [("op", VStr op); ("pid", VNum pid);
                    ("trackIds", VStr (stringifyTracks tracks))] |}.

(** Lines 645-647 and 655-657; [tracks] are the rest parameters. *)
Definition collectTrack (pid : Z) (tracks : list Z) : effect :=
  manipulatePlaylistTracks "add" pid tracks.

Definition uncollectTrack (pid : Z) (tracks : list Z) : effect :=
  manipulatePlaylistTracks "del" pid tracks.

(** *** [dislikeRadioSong], lines 1153-1156 *)

Definition dislikeRadioSong (songId time : Z) : effect :=
  let query := Url.stringify [("alg", VStr "RT"); ("songId", VNum songId);
                              ("time", VNum time)] in
  Posts {| api := Client.W; path := "/radio/trash/add?" +:+ query;
           body := [("songId", VNum songId)] |}.

(** The path of the request a call makes, if it makes one. *)
Definition pathOf (e : effect) : option string :=
  match e with
  | Posts r => Some (path r)
  | Throws _ => None
  end.

Definition bodyOf (e : effect) : list (string * value) :=
  match e with
  | Posts r => body r
  | Throws _ => []
  end.

End Api.

(** ** More on the walks of the cache directories *)

Module DiskMore.
Import Disk.

(** The paths, below [n], of the directories, [n] included. *)
Fixpoint dirs (n : node) : list (list string) :=
  match n with
  | File _ _ | Symlink _ | Special => []
  | Dir _ entries =>
      [] :: flat_map (fun e => map (cons e.1) (dirs e.2)) entries
  end.

Definition dirsLeft (rest : option node) : list (list string) :=
  from_option dirs [] rest.

(** No size below [n] is negative, as is the case of the sizes [lstat]
    reports. *)
Fixpoint nonneg (n : node) : bool :=
  match n with
  | File size _ | Symlink size => 0 <=? size
  | Dir _ entries => forallb (fun e => nonneg e.2) entries
  | Special => true
  end.

(** A tree that consists of regular files, symbolic links and directories
    only, whatever the permissions of the directories. *)
Fixpoint regularOnly (n : node) : bool :=
  match n with
  | File _ _ | Symlink _ => true
  | Dir _ entries => forallb (fun e => regularOnly e.2) entries
  | Special => false
  end.

(** A cache directory that can be listed but not searched (mode 0600):
    [readdir] gives its entry, [lstat] of the entry fails. *)
Definition unsearchableMusic : node :=
  Dir {| r := true; w := true; x := false |}
    [("12345h", File 4096 Complete)].

(** The number of files and links below [n]. *)
Fixpoint links (n : node) : nat :=
  match n with
  | File _ _ | Symlink _ => 1
  | Dir _ entries => foldr (fun e acc => links e.2 + acc)%nat 0%nat entries
  | Special => 0
  end.

Definition linksLeft (rest : option node) : nat :=
  from_option links 0%nat rest.

(** A cache directory with a file that cannot be removed: the directory
    [old] cannot be written. *)
Definition stuckMusic : node :=
  Dir rwx [("12345h", File 4096 Complete);
           ("old", Dir {| r := true; w := false; x := true |}
                     [("1l", File 300 Complete)])].

End DiskMore.

(** ** Reading an escaped query value back *)

Module Unescape.

(** The inverse of [querystring.escape] on what it writes: [%XX] is the
    byte [XX], any other character is itself; [None] where a [%] is not
    followed by two hexadecimal digits. *)
Fixpoint qsUnescape (s : string) : option string :=
  match s with
  | EmptyString => Some ""
  | String c rest =>
      if Ascii.eqb c "%" then
        match rest with
        | String h (String l rest') =>
            match Codec.hexValue h, Codec.hexValue l, qsUnescape rest' with
            | Some a, Some b, Some t =>
                Some (String (ascii_of_N (16 * a + b)) t)
            | _, _, _ => None
            end
        | _ => None
        end
      else String c <$> qsUnescape rest
  end.

End Unescape.

(** ** Sample inputs *)

Module Samples.

(** A response with the lyric ["cab"] and no translation. *)
Definition untranslated : Lyric.response :=
  {| Lyric.tmp_lrc := Some {| Lyric.lyric := Some "cab" |};
     Lyric.tmp_tlyric := None;
     Lyric.tmp_lyricUser := VUndefined;
     Lyric.tmp_transUser := VUndefined |}.

(** What [getMusicLyric] gives for [Lyric.sampleResponse] with the parser
    [Lyric.charLines]. *)
Definition translated : Lyric.result :=
  let lines :=
    [ {| Lyric.timestamp := 97; Lyric.content := "a";
         Lyric.trans := None |};
      {| Lyric.timestamp := 98; Lyric.content := "b";
         Lyric.trans := Some "b" |} ] in
  {| Lyric.r_lrc := Some {| Lyric.info := []; Lyric.lyrics := lines |};
     Lyric.r_txtLyric := None;
     Lyric.r_lyricUser := Some VUndefined;
     Lyric.r_transUser := Some VUndefined;
     Lyric.r_mlrc := Some {| Lyric.m_info := []; Lyric.m_transInfo := [];
                             Lyric.m_lyrics := lines |} |}.

End Samples.

(** ** The shapes of the strings that the regular expressions match *)

Module Shapes.

(** A thread id [thread] made of a word character, [_], two word
    characters, [_], the one or two digits [resType], [_], and the word
    characters [rid], of which there is at least one. *)
Definition threadParts (thread resType rid : string) : Prop :=
  ∃ c0 c1 c2,
    thread = String c0 (String "_" (String c1 (String c2
               (String "_" (resType +:+ String "_" rid))))) ∧
    Api.isWord c0 = true ∧ Api.isWord c1 = true ∧ Api.isWord c2 = true ∧
    (1 ≤ String.length resType ≤ 2)%nat ∧
    Url.allChars Api.isDigit resType = true ∧
    rid ≠ "" ∧ Url.allChars Api.isWord rid = true.

(** A [1] followed by ten digits. *)
Definition cellphone (acc : string) : Prop :=
  ∃ rest, acc = String "1" rest ∧ String.length rest = 10%nat ∧
          Url.allChars Api.isDigit rest = true.

End Shapes.

(** * Properties *)

(** ** [updateCookie] and [logout] *)

(** Called with no argument, [updateCookie] leaves no cookie. *)
Lemma updateCookie_nothing (jar : gmap string string) :
  updateCookie None jar = ∅.
Proof. reflexivity. Qed.

(** C3: [logout] calls [updateCookie] with no argument, which empties the
    cookie jar, exactly when the [code] of the response is the number 200;
    it resolves with that [code]; for any other [code] the jar is the one
    the exchange left and no [updateCookie] is called at all. *)
Theorem logout_clears_iff_code_200
    (postW : string -> gmap string string ->
             (error + Client.response) * gmap string string)
    (jar : gmap string string) :
  let run := logout postW jar in
  match postW "/logout" jar with
  | (inr resp, jar1) =>
      settled run = Resolved (Client.code resp) ∧
      (Client.CallUpdateCookie None ∈ calls run ↔
         Client.code resp = VNum 200) ∧
      (∀ c, Client.CallUpdateCookie c ∈ calls run → c = None) ∧
      jar_after run =
        (if decide (Client.code resp = VNum 200) then ∅ else jar1)
  | (inl e, jar1) =>
      settled run = Rejected e ∧
      jar_after run = jar1 ∧
      ∀ c, Client.CallUpdateCookie c ∉ calls run
  end.
Proof.
  unfold logout, strict_eq.
  destruct (postW "/logout" jar) as [[e | resp] jar1]; simpl.
  - repeat split; auto. intros c Hc.
    apply list_elem_of_singleton in Hc. discriminate.
  - case_bool_decide as Hcode; case_decide; try contradiction; simpl.
    + repeat split; auto.
      * intros _. set_solver.
      * intros c Hc.
        apply elem_of_cons in Hc as [Hc | Hc]; [discriminate |].
        apply list_elem_of_singleton in Hc. congruence.
    + repeat split; auto.
      * intros Hc. apply list_elem_of_singleton in Hc. discriminate.
      * intros Heq. contradiction.
      * intros c Hc. apply list_elem_of_singleton in Hc. discriminate.
Qed.

(** ** Temporary music urls *)

Module MusicUrlFacts.
Import MusicUrl.

(** The bit rates of [h], [m] and [l], and the one-element list for a single
    id. *)
Lemma getMusicUrl_own_keys (id : Z) :
  getMusicUrlW (OneId id) "h" =
    Posts Client.W "/song/enhance/player/url"
      {| ids := [id]; br := VNum 320000 |} ∧
  getMusicUrlE (OneId id) "m" =
    Posts Client.E "/song/enhance/player/url"
      {| ids := [id]; br := VNum 192000 |} ∧
  getMusicUrlL (OneId id) "l" =
    Posts Client.L "/api/song/enhance/player/url"
      {| ids := [id]; br := VNum 128000 |}.
Proof. repeat split. Qed.

(** A key that is neither own nor inherited reads [undefined]. *)
Lemma getMusicUrl_throws (i : idOrIds) (quality : string) :
  QualityMap quality = VUndefined →
  getMusicUrlW i quality = Throws (not_in_hml quality) ∧
  getMusicUrlE i quality = Throws (not_in_hml quality) ∧
  getMusicUrlL i quality = Throws (not_in_hml quality).
Proof.
  intros H. unfold getMusicUrlW, getMusicUrlE, getMusicUrlL.
  rewrite H. simpl. auto.
Qed.

(** C5, at a quality outside [h], [m], [l] that [Object.prototype] has a
    property for: [QualityMap[quality]] is a function, the guard does not
    throw, and the three functions hand a request to the client whose [br]
    is that function. *)
Theorem getMusicUrl_inherited_key_posts :
  getMusicUrlW (OneId 12345) "constructor" =
    Posts Client.W "/song/enhance/player/url"
      {| ids := [12345]; br := VFunction "constructor" |} ∧
  getMusicUrlE (OneId 12345) "constructor" =
    Posts Client.E "/song/enhance/player/url"
      {| ids := [12345]; br := VFunction "constructor" |} ∧
  getMusicUrlL (OneId 12345) "constructor" =
    Posts Client.L "/api/song/enhance/player/url"
      {| ids := [12345]; br := VFunction "constructor" |}.
Proof. repeat split. Qed.

End MusicUrlFacts.

(** ** The url of the local music server *)

Module UrlFacts.
Import Url.

#[local] Arguments String.append !s1 s2 / : simpl nomatch.

Ltac unroll :=
  cbn [contains replaceHash qsEscape allChars String.append andb orb].

Lemma append_assoc (a b c : string) : (a +:+ b) +:+ c = a +:+ (b +:+ c).
Proof. induction a as [| ch a IH]; unroll; [reflexivity | now rewrite IH]. Qed.

Lemma contains_app (c : ascii) (a b : string) :
  contains c (a +:+ b) = contains c a || contains c b.
Proof.
  induction a as [| ch a IH]; unroll; [reflexivity |].
  rewrite IH. apply orb_assoc.
Qed.

Lemma replaceHash_app (a b : string) :
  replaceHash (a +:+ b) = replaceHash a +:+ replaceHash b.
Proof.
  induction a as [| ch a IH]; unroll; [reflexivity |].
  destruct (Ascii.eqb ch "#"); unroll; now rewrite IH.
Qed.

Lemma replaceHash_id (s : string) :
  contains "#" s = false → replaceHash s = s.
Proof.
  induction s as [| ch s IH]; unroll; [reflexivity |].
  intros H. apply orb_false_elim in H as [Hc Hs].
  rewrite Ascii.eqb_sym, Hc. now rewrite IH.
Qed.

(** The two digits of [hexTable] are characters that are never escaped. *)
Lemma hexTable_digits (a : ascii) :
  noEscape (hexDigit (N_of_ascii a / 16)) = true ∧
  noEscape (hexDigit (N_of_ascii a mod 16)) = true.
Proof.
  destruct a as [[] [] [] [] [] [] [] []]; vm_compute; split; reflexivity.
Qed.

Lemma noEscape_neq (c d : ascii) :
  noEscape c = false → noEscape d = true → Ascii.eqb c d = false.
Proof.
  intros Hc Hd. apply Ascii.eqb_neq. intros ->. congruence.
Qed.

(** A character that [querystring.escape] escapes, other than [%], does not
    occur in what it returns. *)
Lemma qsEscape_contains (c : ascii) (s : string) :
  noEscape c = false → c ≠ "%"%char → contains c (qsEscape s) = false.
Proof.
  intros Hc Hpct. induction s as [| a s IH]; unroll; [reflexivity |].
  destruct (noEscape a) eqn:Ha; unroll.
  - rewrite IH, (noEscape_neq c a) by assumption. reflexivity.
  - destruct (hexTable_digits a) as [Hhi Hlo].
    unfold hexTable. unroll.
    rewrite (noEscape_neq c _ Hc Hhi), (noEscape_neq c _ Hc Hlo), IH.
    apply Ascii.eqb_neq in Hpct. rewrite Hpct. reflexivity.
Qed.

Lemma qsEscape_id (s : string) :
  allChars noEscape s = true → qsEscape s = s.
Proof.
  induction s as [| a s IH]; unroll; [reflexivity |].
  intros H. apply andb_prop in H as [Ha Hs]. rewrite Ha. now rewrite IH.
Qed.

Lemma allChars_contains (c : ascii) (s : string) :
  noEscape c = false → allChars noEscape s = true → contains c s = false.
Proof.
  intros Hc. induction s as [| a s IH]; unroll; [reflexivity |].
  intros H. apply andb_prop in H as [Ha Hs].
  rewrite (noEscape_neq c a Hc Ha). now apply IH.
Qed.

Lemma string_of_uint_digits (d : Decimal.uint) :
  allChars noEscape (NilEmpty.string_of_uint d) = true.
Proof.
  induction d; cbn [NilEmpty.string_of_uint allChars];
    try rewrite IHd; reflexivity.
Qed.

(** The decimal writing of an integer holds digits and [-] only. *)
Lemma string_of_number_chars (n : Z) :
  allChars noEscape (string_of_number n) = true.
Proof.
  unfold string_of_number, NilZero.string_of_int, NilZero.string_of_uint.
  destruct (Z.to_int n) as [d | d]; destruct d; try reflexivity;
    cbn [allChars]; rewrite ?andb_true_l;
    match goal with
    | |- allChars _ (NilEmpty.string_of_uint ?u) = true =>
        apply (string_of_uint_digits u)
    end.
Qed.

Lemma stringify_query (id : Z) (quality : string) (ignoreCache : bool) :
  stringify
    (if ignoreCache
     then [("id", VNum id); ("quality", VStr quality);
           ("ignoreCache", VBool ignoreCache)]
     else [("id", VNum id); ("quality", VStr quality)]) =
  "id=" +:+ string_of_number id +:+ "&quality=" +:+ qsEscape quality +:+
  (if ignoreCache then "&ignoreCache=true" else "").
Proof.
  destruct ignoreCache; cbn [stringify stringifyPrimitive];
    rewrite (qsEscape_id (string_of_number id))
      by apply string_of_number_chars.
  - reflexivity.
  - reflexivity.
Qed.

Lemma query_no_hash (id : Z) (quality : string) (ignoreCache : bool) :
  contains "#"
    ("?" +:+ "id=" +:+ string_of_number id +:+ "&quality=" +:+
     qsEscape quality +:+
     (if ignoreCache then "&ignoreCache=true" else "")) = false.
Proof.
  rewrite !contains_app.
  rewrite (allChars_contains "#" (string_of_number id))
    by (reflexivity || apply string_of_number_chars).
  rewrite qsEscape_contains by (reflexivity || discriminate).
  destruct ignoreCache; reflexivity.
Qed.

Lemma cutAt_app (c : ascii) (a b : string) :
  contains c a = false → cutAt c (a +:+ String c b) = Some (a, b).
Proof.
  induction a as [| ch a IH]; cbn [contains cutAt String.append].
  - intros _. now rewrite Ascii.eqb_refl.
  - intros H. apply orb_false_elim in H as [Hc Ha].
    rewrite Hc, IH by assumption. reflexivity.
Qed.

Lemma splitOn_app (c : ascii) (a b : string) :
  contains c a = false → splitOn c (a +:+ String c b) = a :: splitOn c b.
Proof.
  induction a as [| ch a IH]; cbn [contains splitOn String.append].
  - intros _. now rewrite Ascii.eqb_refl.
  - intros H. apply orb_false_elim in H as [Hc Ha].
    rewrite Hc, IH by assumption. reflexivity.
Qed.

Lemma splitOn_none (c : ascii) (a : string) :
  contains c a = false → splitOn c a = [a].
Proof.
  induction a as [| ch a IH]; cbn [contains splitOn]; [reflexivity |].
  intros H. apply orb_false_elim in H as [Hc Ha].
  rewrite Hc, IH by assumption. reflexivity.
Qed.

(** The query parameters of a url of the shape [getMusicUrlLocal] builds. *)
Lemma queryParam_local (port id : Z) (quality : string) (ic : bool) :
  let u := "http://localhost:" +:+ string_of_number port +:+
           "/music?id=" +:+ string_of_number id +:+
           "&quality=" +:+ qsEscape quality +:+
           (if ic then "&ignoreCache=true" else "") in
  queryParam "id" u = Some (string_of_number id) ∧
  queryParam "quality" u = Some (qsEscape quality) ∧
  queryParam "ignoreCache" u = (if ic then Some "true" else None).
Proof.
  intros u. unfold queryParam.
  set (tail := if ic then "&ignoreCache=true" else "") in u.
  assert (Hu : u = ("http://localhost:" +:+ string_of_number port +:+
                    "/music") +:+
                   String "?" ("id=" +:+ string_of_number id +:+
                               "&quality=" +:+ qsEscape quality +:+ tail)).
  { subst u. cbn [String.append]. rewrite append_assoc. reflexivity. }
  rewrite Hu, cutAt_app.
  2:{ rewrite !contains_app,
        (allChars_contains "?" _ eq_refl (string_of_number_chars port)).
      reflexivity. }
  replace ("id=" +:+ string_of_number id +:+ "&quality=" +:+
           qsEscape quality +:+ tail)
    with (("id=" +:+ string_of_number id) +:+
          String "&" ("quality=" +:+ qsEscape quality +:+ tail))
    by (cbn [String.append]; rewrite ?append_assoc; reflexivity).
  rewrite splitOn_app.
  2:{ rewrite contains_app,
        (allChars_contains "&" _ eq_refl (string_of_number_chars id)).
      reflexivity. }
  assert (Hq : contains "&" ("quality=" +:+ qsEscape quality) = false).
  { rewrite contains_app, qsEscape_contains by (reflexivity || discriminate).
    reflexivity. }
  subst tail. destruct ic.
  - replace ("quality=" +:+ qsEscape quality +:+ "&ignoreCache=true")
      with (("quality=" +:+ qsEscape quality) +:+
            String "&" "ignoreCache=true")
      by (cbn [String.append]; rewrite ?append_assoc; reflexivity).
    rewrite splitOn_app by exact Hq.
    repeat split; reflexivity.
  - assert (Hnil : ∀ s : string, s +:+ "" = s).
    { induction s as [| ch s IH]; cbn [String.append]; congruence. }
    rewrite Hnil, splitOn_none by exact Hq.
    repeat split; reflexivity.
Qed.

(** C6, as the code has it: once the server listens ([musicServerPort] is
    its port, above 0), the url is [http://localhost:<port>/music] with the
    query parameters [id] and [quality] (escaped as [querystring] does), and
    with the parameter [ignoreCache], of value [true], exactly when
    [ignoreCache] is [true]. *)
Theorem getMusicUrlLocal_url (musicServerPort id : Z) (quality : string)
    (ignoreCache : bool) :
  0 < musicServerPort →
  ∃ u,
    getMusicUrlLocal musicServerPort id quality ignoreCache =
      Resolved {| url := u |} ∧
    u = "http://localhost:" +:+ string_of_number musicServerPort +:+
        "/music?id=" +:+ string_of_number id +:+
        "&quality=" +:+ qsEscape quality +:+
        (if ignoreCache then "&ignoreCache=true" else "") ∧
    queryParam "id" u = Some (string_of_number id) ∧
    queryParam "quality" u = Some (qsEscape quality) ∧
    queryParam "ignoreCache" u = (if ignoreCache then Some "true" else None).
Proof.
  intros Hport. eexists. split; [| split; [reflexivity |]].
  2: apply queryParam_local.
  unfold getMusicUrlLocal, format.
  cbn [protocol hostname Url.port pathname query].
  rewrite stringify_query.
  assert (Hp : truthy (VNum musicServerPort) = true).
  { unfold truthy. destruct (Z.eqb_spec musicServerPort 0); [lia | easy]. }
  rewrite Hp.
  set (q := "id=" +:+ _).
  assert (Hq : truthy (VStr q) = true) by reflexivity.
  rewrite Hq.
  rewrite (replaceHash_id ("?" +:+ q)) by apply query_no_hash.
  subst q. reflexivity.
Qed.

(** The same call at a port, an id and a quality. *)
Lemma getMusicUrlLocal_url_witness :
  0 < 40000 ∧
  ∃ u,
    getMusicUrlLocal 40000 12345 "h" true = Resolved {| url := u |} ∧
    u = "http://localhost:40000/music?id=12345&quality=h&ignoreCache=true" ∧
    queryParam "id" u = Some "12345" ∧
    queryParam "quality" u = Some "h" ∧
    queryParam "ignoreCache" u = Some "true".
Proof.
  split; [lia |]. apply (getMusicUrlLocal_url 40000 12345 "h" true). lia.
Defined.

(** C6 as the specification has it fails: with [ignoreCache] true the
    parameter is there, and its value is not [1]. *)
Lemma getMusicUrlLocal_ignoreCache_not_1 :
  ¬ (∀ (port id : Z) (quality : string) (ignoreCache : bool),
       ∃ u, getMusicUrlLocal port id quality ignoreCache =
              Resolved {| url := u |} ∧
            (queryParam "ignoreCache" u = Some "1" ↔ ignoreCache = true)).
Proof.
  intros H. destruct (H 40000 12345 "h" true) as (u & Hu & Hparam).
  injection Hu as <-.
  destruct Hparam as [_ Hparam]. specialize (Hparam eq_refl).
  vm_compute in Hparam. discriminate.
Qed.

End UrlFacts.

(** ** The cache directories *)

Module DiskFacts.
Import Disk.

(** Induction on a tree, with the hypothesis on every entry of a
    directory. *)
Lemma node_nested_ind (P : node → Prop) :
  (∀ size st, P (File size st)) →
  (∀ size, P (Symlink size)) →
  (∀ p entries, Forall (fun e => P e.2) entries → P (Dir p entries)) →
  P Special →
  ∀ n, P n.
Proof.
  intros HFile HLink HDir HSpecial. fix IH 1.
  intros [size st | size | p entries |].
  - apply HFile.
  - apply HLink.
  - apply HDir. induction entries as [| [name c] rest IHrest].
    + constructor.
    + constructor; [apply IH | apply IHrest].
  - apply HSpecial.
Qed.

Lemma reduceSum_cons (a : Z) (l : list Z) :
  reduceSum (a :: l) = a + reduceSum l.
Proof.
  unfold reduceSum. cbn [fold_left].
  assert (H : ∀ l b, fold_left Z.add l b = b + fold_left Z.add l 0).
  { clear. induction l as [| c l IH]; intros b; cbn [fold_left]; [lia |].
    rewrite (IH (b + c)), (IH (0 + c)). lia. }
  rewrite (H l (0 + a)). lia.
Qed.

(** On a plain tree every call of the walk resolves, with the size the
    specification gives. *)
Lemma getDiskUsage_plain (n : node) :
  plain false n = true → getDiskUsage true n = Resolved (specUsage n).
Proof.
  induction n as [size st | size | p entries IH |] using node_nested_ind;
    cbn [plain getDiskUsage specUsage negb]; try easy.
  intros H. apply andb_prop in H as [H Hall]. apply andb_prop in H as [H _].
  apply andb_prop in H as [Hr Hx]. rewrite Hr, Hx.
  assert (Hsizes :
    all (map (fun e => getDiskUsage true e.2) entries) =
    Resolved (map (fun e => specUsage e.2) entries) ∧
    reduceSum (map (fun e => specUsage e.2) entries) =
    foldr (fun e acc => specUsage e.2 + acc) 0 entries).
  { clear Hr Hx. induction entries as [| e rest IHrest]; [easy |].
    cbn [forallb] in Hall. apply andb_prop in Hall as [He Hrest].
    inversion IH as [| ? ? IHe IHr]; subst.
    destruct (IHrest IHr Hrest) as [Hall' Hsum].
    cbn [map all foldr]. rewrite (IHe He), Hall', reduceSum_cons, Hsum.
    easy. }
  destruct Hsizes as [-> ->]. reflexivity.
Qed.

(** C8, as the code has it: on a tree of regular files, symbolic links and
    directories on which every [lstat] and [readdir] of the walk succeeds
    (every directory can be listed and searched), [getDiskUsage] of the
    cache root resolves to the size of the specification - the [lstat]
    size of a file or link, the sum over the entries of a directory - and
    [getDataSize] reports it with [ok] true. *)
Theorem getDataSize_total (data : node) (type : cacheType) (writable : bool)
    (root : node) :
  resolve (CachePath type) true data = inr (writable, root) →
  plain false root = true →
  getDiskUsage true root = Resolved (specUsage root) ∧
  getDataSize data type =
    Resolved {| ok := true; size := specUsage root; msg := None |}.
Proof.
  intros Hroot Hplain.
  pose proof (getDiskUsage_plain root Hplain) as Hdu.
  split; [exact Hdu |].
  unfold getDataSize, getDiskUsageAt. rewrite Hroot, Hdu. reflexivity.
Qed.

Lemma getDataSize_total_witness :
  getDiskUsage true sampleMusic = Resolved 4407 ∧
  getDataSize sampleData Music =
    Resolved {| ok := true; size := 4407; msg := None |}.
Proof.
  apply (getDataSize_total sampleData Music true sampleMusic); reflexivity.
Defined.

(** On a plain tree that can be changed, every file and link is unlinked
    and the directories remain. *)
Lemma removeRecursive_plain (n : node) :
  plain true n = true →
  removeRecursive true true n = (Resolved tt, skeleton n).
Proof.
  induction n as [size st | size | p entries IH |] using node_nested_ind;
    cbn [plain removeRecursive skeleton negb orb]; try easy.
  intros H. apply andb_prop in H as [H Hall]. apply andb_prop in H as [H Hw].
  apply andb_prop in H as [Hr Hx]. rewrite Hr, Hx, Hw. cbn [andb].
  assert (Hruns :
    map (fun e => (e.1, removeRecursive true true e.2)) entries =
    map (fun e => (e.1, (Resolved tt, skeleton e.2))) entries).
  { clear Hr Hx Hw. induction entries as [| e rest IHrest]; [easy |].
    cbn [forallb] in Hall. apply andb_prop in Hall as [He Hrest].
    inversion IH as [| ? ? IHe IHr]; subst.
    cbn [map]. rewrite (IHe He), (IHrest IHr Hrest). reflexivity. }
  rewrite Hruns. clear.
  assert (Hall :
    ∃ us, all (map (fun run : string * (promise unit * option node) =>
                      run.2.1)
                 (map (fun e => (e.1, (Resolved tt, skeleton e.2))) entries))
          = Resolved us).
  { induction entries as [| e rest [us Hus]]; [now exists [] |].
    exists (tt :: us). cbn [map all fst snd] in *. now rewrite Hus. }
  destruct Hall as [us ->]. f_equal. f_equal. f_equal.
  induction entries as [| e rest IHrest]; [easy |].
  csimpl. rewrite IHrest. reflexivity.
Qed.

Lemma skeleton_no_partial (n : node) : partialLeft (skeleton n) = [].
Proof.
  induction n as [size st | size | p entries IH |] using node_nested_ind;
    try reflexivity.
  cbn [skeleton partialLeft from_option partialPaths].
  induction entries as [| e rest IHrest]; [reflexivity |].
  inversion IH as [| ? ? IHe IHr]; subst. csimpl.
  destruct (skeleton e.2) as [d |] eqn:Hd; csimpl.
  - unfold partialLeft in IHe. cbn [from_option] in IHe.
    rewrite IHe, (IHrest IHr). reflexivity.
  - apply (IHrest IHr).
Qed.

(** C7, as the code has it: [removeRecursive] unlinks every file and link
    below the path, whatever a save is doing to it. On a cache root of
    files, links and directories that can be listed, searched and changed,
    it resolves, only the directories are left, no file that a save was
    writing among them, and [clearCache] resolves with [ok] true. *)
Theorem removeRecursive_unlinks_all (data : node) (type : cacheType)
    (root : node) :
  resolve (CachePath type) true data = inr (true, root) →
  plain true root = true →
  removeRecursive true true root = (Resolved tt, skeleton root) ∧
  partialLeft (removeRecursive true true root).2 = [] ∧
  clearCache data type = Resolved {| cleared := true; why := None |}.
Proof.
  intros Hroot Hplain.
  pose proof (removeRecursive_plain root Hplain) as Hrm.
  split; [exact Hrm |]. split.
  - rewrite Hrm. apply skeleton_no_partial.
  - unfold clearCache, removeRecursiveAt. rewrite Hroot, Hrm. reflexivity.
Qed.

Lemma removeRecursive_unlinks_all_witness :
  removeRecursive true true savingMusic = (Resolved tt, Some (Dir rwx [])) ∧
  partialLeft (removeRecursive true true savingMusic).2 = [] ∧
  clearCache (Dir rwx [("musicCache", savingMusic)]) Music =
    Resolved {| cleared := true; why := None |}.
Proof.
  apply (removeRecursive_unlinks_all
           (Dir rwx [("musicCache", savingMusic)]) Music savingMusic);
    reflexivity.
Defined.

(** C7 as the specification has it fails: a file that a save is writing is
    unlinked like any other. *)
Lemma removeRecursive_removes_partial :
  ¬ (∀ (root : node) (path : list string),
       path ∈ partialPaths root →
       path ∈ partialLeft (removeRecursive true true root).2).
Proof.
  intros H. specialize (H savingMusic ["67890m"]).
  assert (Hin : ["67890m"] ∈ partialPaths savingMusic).
  { cbn. apply list_elem_of_singleton. reflexivity. }
  apply H in Hin. cbn in Hin. inversion Hin.
Qed.

(** Neither promise is ever rejected. *)
Lemma never_rejected (data : node) (type : cacheType) (e : error) :
  getDataSize data type ≠ Rejected e ∧ clearCache data type ≠ Rejected e.
Proof.
  unfold getDataSize, clearCache, tryAwait.
  split.
  - destruct (getDiskUsageAt _ _); discriminate.
  - destruct (removeRecursiveAt _ _); discriminate.
Qed.

(** An error of [lstat] or of [unlink] is reported with [ok] false. *)
Lemma lstat_error_reported :
  getDataSize (Dir rwx []) Music =
    Resolved {| ok := false; size := 0; msg := Some ENOENT |} ∧
  clearCache (Dir rwx []) Music =
    Resolved {| cleared := false; why := Some ENOENT |}.
Proof. split; reflexivity. Qed.

(** C10, at a cache that holds a directory [readdir] fails on: the promise
    of [readdir] has no handler for the failure, so the promises of
    [getDiskUsage] and [removeRecursive] never settle, and neither do those
    of [getDataSize] and [clearCache]; no [{ok: false}] is reported. *)
Theorem readdir_error_never_settles :
  getDataSize lockedData Music = Pending ∧
  clearCache lockedData Music = Pending.
Proof. split; reflexivity. Qed.

End DiskFacts.

(** ** Lyrics *)

Module LyricFacts.
Import Lyric.

Lemma insertBy_timestamps_in (a : line) (l : list line) (t : Z) :
  t ∈ map timestamp (insertBy byTimestamp a l) →
  t = timestamp a ∨ t ∈ map timestamp l.
Proof.
  induction l as [| b rest IH]; cbn [insertBy map].
  - intros H. apply list_elem_of_singleton in H. now left.
  - destruct (byTimestamp a b <=? 0); cbn [map]; intros H.
    + apply elem_of_cons in H as [-> | H]; [now left | now right].
    + apply elem_of_cons in H as [-> | H].
      * right. apply elem_of_cons. now left.
      * destruct (IH H) as [-> | Hin]; [now left |].
        right. apply elem_of_cons. now right.
Qed.

Lemma insertBy_sorted (a : line) (l : list line) :
  sortedByTimestamp l → sortedByTimestamp (insertBy byTimestamp a l).
Proof.
  unfold sortedByTimestamp.
  induction l as [| b rest IH]; cbn [insertBy map]; intros Hs.
  - constructor; constructor.
  - inversion Hs as [| ? ? Hrest Hb]; subst.
    unfold byTimestamp at 1.
    destruct (Z.leb_spec (timestamp a - timestamp b) 0) as [Hle | Hgt];
      cbn [map].
    + constructor; [exact Hs |].
      constructor; [lia |].
      eapply Forall_impl; [exact Hb |]. cbn. intros; lia.
    + constructor; [now apply IH |].
      apply Forall_forall. intros t Ht.
      apply insertBy_timestamps_in in Ht as [-> | Ht]; [lia |].
      rewrite Forall_forall in Hb. now apply Hb.
Qed.

(** What [sort(MusicLyric.byTimestamp)] leaves is in the order of the
    timestamps. *)
Lemma sort_sorted (l : list line) : sortedByTimestamp (sort byTimestamp l).
Proof.
  unfold sort. induction l as [| a l IH]; cbn [foldr].
  - constructor.
  - now apply insertBy_sorted.
Qed.

Lemma insertBy_length (a : line) (m : list line) :
  length (insertBy byTimestamp a m) = S (length m).
Proof.
  induction m as [| b m IHm]; cbn [insertBy]; [reflexivity |].
  destruct (_ <=? _); cbn [length]; [reflexivity | now rewrite IHm].
Qed.

Lemma sort_length (l : list line) :
  length (sort byTimestamp l) = length l.
Proof.
  unfold sort. induction l as [| a l IH]; cbn [foldr length]; [reflexivity |].
  now rewrite insertBy_length, IH.
Qed.

(** The loop writes [trans] and nothing else: the timestamps of the lines
    stay as they are. *)
Lemma mergeLoop_timestamps (ml tl : list line) :
  map timestamp (mergeLoop ml tl) = map timestamp ml.
Proof.
  revert tl. induction ml as [| m ml IH]; intros tl; [reflexivity |].
  induction tl as [| t tl IHtl]; [reflexivity |].
  cbn [mergeLoop] in *.
  destruct (timestamp m =? timestamp t).
  - cbn [map setTrans timestamp]. now rewrite IH.
  - destruct (timestamp m <? timestamp t).
    + cbn [map]. now rewrite IH.
    + exact IHtl.
Qed.

(** C9: when the response has a translated lyric ([tmp.tlyric.lyric] is a
    string that is not empty), [getMusicLyric] ends with a [TypeError]
    if the lyric itself is missing, empty or parses to no line, as
    [result.lrc] is undefined where its [info] is read; and if the lyric
    parses to at least one line, it resolves, with [lrc.lyrics] and
    [mlrc.lyrics] both in the order of the timestamps. *)
Theorem getMusicLyric_translated (parse : string → lrc) (tmp : response)
    (ttext : string) :
  present (tmp_tlyric tmp) = Some ttext →
  match present (tmp_lrc tmp) with
  | Some text =>
      match lyrics (parse text) with
      | [] =>
          ∃ msg, getMusicLyric parse (Resolved tmp) =
                   Rejected (TypeError msg)
      | _ :: _ =>
          ∃ res l m,
            getMusicLyric parse (Resolved tmp) = Resolved res ∧
            r_lrc res = Some l ∧ r_mlrc res = Some m ∧
            sortedByTimestamp (lyrics l) ∧ sortedByTimestamp (m_lyrics m)
      end
  | None =>
      ∃ msg, getMusicLyric parse (Resolved tmp) = Rejected (TypeError msg)
  end.
Proof.
  intros Ht. unfold getMusicLyric, translatedPart, originalPart.
  rewrite Ht.
  destruct (present (tmp_lrc tmp)) as [text |]; cbn.
  - destruct (lyrics (parse text)) as [| a rest] eqn:Hl; cbn.
    + eexists. reflexivity.
    + do 3 eexists. split; [reflexivity |]. cbn.
      split; [reflexivity |]. split; [reflexivity |].
      assert (Hs : sortedByTimestamp
                     (mergeLoop (sort byTimestamp (a :: rest))
                        (sort byTimestamp (lyrics (parse ttext))))).
      { unfold sortedByTimestamp. rewrite mergeLoop_timestamps.
        apply sort_sorted. }
      split; exact Hs.
  - eexists. reflexivity.
Qed.

Lemma getMusicLyric_translated_witness :
  ∃ res l m,
    getMusicLyric charLines (Resolved sampleResponse) = Resolved res ∧
    r_lrc res = Some l ∧ r_mlrc res = Some m ∧
    sortedByTimestamp (lyrics l) ∧ sortedByTimestamp (m_lyrics m).
Proof.
  apply (getMusicLyric_translated charLines sampleResponse "b").
  reflexivity.
Defined.

(** The same response through the functions: the lines come out in order,
    the line of ["b"] with its translation, in both arrays. *)
Example getMusicLyric_sample :
  getMusicLyric charLines (Resolved sampleResponse) =
  Resolved
    (let lines := [ {| timestamp := 97; content := "a"; trans := None |};
                    {| timestamp := 98; content := "b"; trans := Some "b" |} ]
     in {| r_lrc := Some {| info := []; lyrics := lines |};
           r_txtLyric := None;
           r_lyricUser := Some VUndefined;
           r_transUser := Some VUndefined;
           r_mlrc := Some {| m_info := []; m_transInfo := [];
                             m_lyrics := lines |} |}).
Proof. reflexivity. Qed.

(** A translation without a lyric. *)
Example getMusicLyric_translation_only :
  getMusicLyric charLines
    (Resolved {| tmp_lrc := None;
                 tmp_tlyric := Some {| lyric := Some "b" |};
                 tmp_lyricUser := VUndefined;
                 tmp_transUser := VUndefined |}) =
  Rejected (TypeError "Cannot read property 'info' of undefined").
Proof. reflexivity. Qed.

Ltac inlist :=
  repeat match goal with
         | H : _ ∈ _ :: _ |- _ => apply elem_of_cons in H as [H | H]
         | H : _ ∈ [] |- _ => apply elem_of_nil in H; contradiction
         end;
  try discriminate; try congruence.

(** C4: once [lyricCache.has(id.toString())] has answered,
    [getMusicLyricCached] fetches the lyric from the server exactly when
    [ignoreCache] is true or the answer is false. When the answer is true
    and [ignoreCache] false, it sends no request: it reads the file at
    [lyricCache.fullPath(id)] and returns what [JSON.parse] makes of its
    text. When it fetches and the fetch gives a lyric, it saves that lyric
    under [id.toString()] and returns it. *)
Theorem getMusicLyricCached_fetches_iff
    (parse : string → lrc) (has : string → promise bool)
    (fullPath : value → error + string) (readFile : string → promise string)
    (JSON_parse : string → error + result)
    (postE_lyric : Z → promise response)
    (id : Z) (ignoreCache hasCache : bool) :
  has (string_of_number id) = Resolved hasCache →
  let run := getMusicLyricCached parse has fullPath readFile JSON_parse
               postE_lyric id ignoreCache in
  let key := string_of_number id in
  (Fetch id ∈ run.2 ↔ ignoreCache = true ∨ hasCache = false) ∧
  (∀ id', Fetch id' ∈ run.2 → id' = id) ∧
  (if hasCache && negb ignoreCache then
     match fullPath (VNum id) with
     | inr pathname =>
         run.2 = [Has key; ReadFile pathname] ∧
         run.1 = match readFile pathname with
                 | Resolved text =>
                     match JSON_parse text with
                     | inr v => Resolved v
                     | inl e => Rejected e
                     end
                 | Rejected e => Rejected e
                 | Pending => Pending
                 end
     | inl e => run = (Rejected e, [Has key])
     end
   else
     match getMusicLyric parse (postE_lyric id) with
     | Resolved lyric =>
         run = (Resolved lyric, [Has key; Fetch id; Save key lyric])
     | Rejected e => run = (Rejected e, [Has key; Fetch id])
     | Pending => run = (Pending, [Has key; Fetch id])
     end).
Proof.
  intros Hhas. cbn zeta. unfold getMusicLyricCached, readCached.
  rewrite Hhas.
  destruct hasCache, ignoreCache; cbn [andb negb].
  2: destruct (fullPath (VNum id)) as [e | pathname]; cbn [fst snd];
     (split; [split; [intros Hin; inlist | intros [H | H]; discriminate] |]);
     (split; [intros id' Hin; inlist | try split; reflexivity]).
  all: destruct (getMusicLyric parse (postE_lyric id)); cbn [fst snd];
       (split; [split; [intros _; auto | intros _; do 2 constructor] |]);
       (split; [intros id' Hin; inlist | reflexivity]).
Qed.

(** A call with the lyric in the cache and [ignoreCache] set: the lyric is
    fetched and saved again. *)
Lemma getMusicLyricCached_fetches_iff_witness :
  let run :=
    getMusicLyricCached charLines (fun _ => Resolved true)
      (fun _ => inr "lyricCache/12345") (fun _ => Resolved "{}")
      (fun _ => inl (Error "SyntaxError")) (fun _ => Resolved sampleResponse)
      12345 true in
  (Fetch 12345 ∈ run.2 ↔ true = true ∨ true = false) ∧
  (∀ id', Fetch id' ∈ run.2 → id' = 12345) ∧
  ∃ lyric,
    run = (Resolved lyric, [Has "12345"; Fetch 12345; Save "12345" lyric]).
Proof.
  pose proof (getMusicLyricCached_fetches_iff charLines
                (fun _ => Resolved true)
                (fun _ => inr "lyricCache/12345") (fun _ => Resolved "{}")
                (fun _ => inl (Error "SyntaxError"))
                (fun _ => Resolved sampleResponse)
                12345 true true eq_refl) as (Hiff & Honly & Hrun).
  split; [exact Hiff |]. split; [exact Honly |].
  eexists. exact Hrun.
Defined.

(** The same cache asked without [ignoreCache]: the file is read, and
    nothing is fetched. *)
Example getMusicLyricCached_hit :
  getMusicLyricCached charLines (fun _ => Resolved true)
    (fun _ => inr "lyricCache/12345") (fun _ => Resolved "{}")
    (fun _ => inl (Error "SyntaxError")) (fun _ => Resolved sampleResponse)
    12345 false =
  (Rejected (Error "SyntaxError"),
   [Has "12345"; ReadFile "lyricCache/12345"]).
Proof. reflexivity. Qed.

End LyricFacts.

(** ** The streaming server *)

Module StreamingServerFacts.
Import StreamingServer.

Lemma fetches_app (key : string) (s : state) (ks : list string) :
  length (filter (fun k => k = key) (upstream s ++ ks)) =
  (fetches key s + length (filter (fun k => k = key) ks))%nat.
Proof. unfold fetches. now rewrite filter_app, length_app. Qed.

(** One request: the keys that are COMPLETE stay; if the request is for
    [key] and the cache does not serve it, the connection joins the fetch
    of [key], which is started if none is in flight. *)
Lemma handle_effect (key : string) (conn : nat) (req : request) (s : state) :
  complete (handle conn req s) = complete s ∧
  (inflight (handle conn req s) !! key, fetches key (handle conn req s)) =
  if bool_decide (cacheKey req = key) &&
     negb (negb (ignoreCache req) && bool_decide (key ∈ complete s))
  then match inflight s !! key with
       | Some waiters => (Some (waiters ++ [conn]), fetches key s)
       | None => (Some [conn], S (fetches key s))
       end
  else (inflight s !! key, fetches key s).
Proof.
  unfold handle.
  destruct (decide (cacheKey req = key)) as [<- | Hne].
  - rewrite (bool_decide_eq_true_2 (cacheKey req = cacheKey req)) by easy.
    cbn [andb].
    destruct (negb (ignoreCache req) &&
              bool_decide (cacheKey req ∈ complete s)); cbn [negb].
    + split; reflexivity.
    + destruct (inflight s !! cacheKey req) as [waiters |];
        cbn [complete inflight]; rewrite lookup_insert_eq.
      * split; reflexivity.
      * split; [reflexivity |]. f_equal.
        unfold fetches at 1. cbn [upstream]. rewrite fetches_app. cbn.
        rewrite decide_True by reflexivity. cbn. lia.
  - rewrite (bool_decide_eq_false_2 (cacheKey req = key)) by easy.
    cbn [andb].
    destruct (negb (ignoreCache req) &&
              bool_decide (cacheKey req ∈ complete s)).
    + split; reflexivity.
    + destruct (inflight s !! cacheKey req) as [waiters |];
        cbn [complete inflight]; rewrite lookup_insert_ne by exact Hne.
      * split; reflexivity.
      * split; [reflexivity |]. f_equal.
        unfold fetches at 1. cbn [upstream]. rewrite fetches_app. cbn.
        rewrite decide_False by exact Hne. cbn. lia.
Qed.

(** The end of the download for another key changes nothing for [key]. *)
Lemma finish_other (key k : string) (ok : bool) (s : state) :
  k ≠ key →
  bool_decide (key ∈ complete (finish k ok s)) =
    bool_decide (key ∈ complete s) ∧
  inflight (finish k ok s) !! key = inflight s !! key ∧
  fetches key (finish k ok s) = fetches key s.
Proof.
  intros Hne. unfold finish.
  destruct (inflight s !! k) as [waiters |]; [| auto].
  cbn [complete inflight]. rewrite lookup_delete_ne by exact Hne.
  split; [| split; reflexivity].
  destruct ok; [| reflexivity]. apply bool_decide_ext.
  rewrite elem_of_union, elem_of_singleton.
  split; [intros [Heq | Hin]; [congruence | exact Hin] | auto].
Qed.

(** Events that do not end the download for [key]: whether [key] is
    COMPLETE does not change, the connections that miss the cache join the
    fetch of [key], and a fetch is started only if none was in flight. *)
Lemma run_joins (key : string) (events : list event) (s : state) :
  forallb (fun e => negb (finishes key e)) events = true →
  let cached := bool_decide (key ∈ complete s) in
  let joined := missing key cached events in
  let s' := run events s in
  bool_decide (key ∈ complete s') = cached ∧
  inflight s' !! key =
    match inflight s !! key with
    | Some waiters => Some (waiters ++ joined)
    | None => match joined with [] => None | _ => Some joined end
    end ∧
  fetches key s' =
    match inflight s !! key, joined with
    | None, _ :: _ => S (fetches key s)
    | _, _ => fetches key s
    end.
Proof.
  revert s. induction events as [| e rest IH]; intros s Hno.
  - cbn. destruct (inflight s !! key); rewrite ?app_nil_r; auto.
  - cbn [forallb] in Hno. apply andb_prop in Hno as [He Hrest].
    specialize (IH (step s e) Hrest). cbn zeta in IH |- *.
    destruct IH as (IHc & IHi & IHf).
    change (run (e :: rest) s) with (run rest (step s e)).
    destruct e as [conn req | k ok]; cbn [missing step] in *.
    + destruct (handle_effect key conn req s) as [Hc Heff].
      rewrite Hc in IHc, IHi, IHf.
      destruct (bool_decide (cacheKey req = key) &&
                negb (negb (ignoreCache req) &&
                      bool_decide (key ∈ complete s))).
      * destruct (inflight s !! key) as [waiters |];
          injection Heff as Hi Hf; rewrite Hi in IHi, IHf; rewrite Hf in IHf.
        -- rewrite <- app_assoc in IHi. auto.
        -- split; [exact IHc |]. split; [exact IHi |].
           rewrite IHf. reflexivity.
      * injection Heff as Hi Hf. rewrite Hi in IHi, IHf. rewrite Hf in IHf.
        auto.
    + cbn [finishes] in He. apply negb_true_iff in He.
      apply bool_decide_eq_false in He.
      destruct (finish_other key k ok s He) as (Hc & Hi & Hf).
      rewrite Hc in IHc, IHi, IHf. rewrite Hi in IHi, IHf.
      rewrite Hf in IHf. auto.
Qed.

(** C1: from a state with no fetch for [key] in flight, let requests
    arrive in any number and order, mixed with requests and ends of
    downloads for other keys, and let no download for [key] end meanwhile.
    If at least one of the requests for [key] is not served by the cache,
    exactly one upstream fetch for [key] is started; every connection whose
    request for [key] misses the cache is attached to that fetch, the first
    as its coordinator; and when the download ends, all of them get its
    result, and the same one. *)
Theorem single_flight (key : string) (events : list event) (s : state) :
  inflight s !! key = None →
  forallb (fun e => negb (finishes key e)) events = true →
  missing key (bool_decide (key ∈ complete s)) events ≠ [] →
  let joined := missing key (bool_decide (key ∈ complete s)) events in
  let s' := run events s in
  fetches key s' = S (fetches key s) ∧
  inflight s' !! key = Some joined ∧
  ∀ ok, answers (finish key ok s') =
        answers s' ++
        map (fun conn => (conn, if ok then Fetched key else FetchError key))
            joined.
Proof.
  intros Hidle Hno Hsome. cbn zeta.
  destruct (run_joins key events s Hno) as (_ & Hi & Hf).
  rewrite Hidle in Hi, Hf.
  destruct (missing key (bool_decide (key ∈ complete s)) events)
    as [| conn others] eqn:Hj; [contradiction |].
  split; [exact Hf |]. split; [exact Hi |].
  intros ok. unfold finish. rewrite Hi. reflexivity.
Qed.

(** Three requests for track 12345 at quality [h] on a server that has just
    started: one fetch, shared by the three connections. *)
Lemma single_flight_witness :
  fetches "12345h" (run threeRequests idle) = 1%nat ∧
  inflight (run threeRequests idle) !! "12345h" = Some [1; 2; 3]%nat ∧
  ∀ ok, answers (finish "12345h" ok (run threeRequests idle)) =
        answers (run threeRequests idle) ++
        map (fun conn =>
               (conn, if ok then Fetched "12345h" else FetchError "12345h"))
            [1; 2; 3]%nat.
Proof.
  apply (single_flight "12345h" threeRequests idle).
  - reflexivity.
  - reflexivity.
  - vm_compute. discriminate.
Defined.

End StreamingServerFacts.

(** ** The codec *)

Module CodecFacts.
Import Codec.

#[local] Arguments String.append !s1 s2 / : simpl nomatch.

(** *** Hexadecimal text *)

Lemma hexByte_back (c : ascii) :
  hexValue (Url.hexDigit (N_of_ascii c / 16)) = Some (N_of_ascii c / 16)%N ∧
  hexValue (Url.hexDigit (N_of_ascii c mod 16)) =
    Some (N_of_ascii c mod 16)%N ∧
  ascii_of_N (16 * (N_of_ascii c / 16) + N_of_ascii c mod 16) = c.
Proof.
  destruct c as [[] [] [] [] [] [] [] []]; vm_compute; repeat split.
Qed.

Lemma hexDecode_encode (m : list ascii) : hexDecode (hexEncode m) = Some m.
Proof.
  induction m as [| c rest IH]; [reflexivity |].
  cbn [hexEncode hexByte String.append hexDecode].
  destruct (hexByte_back c) as (-> & -> & ->). now rewrite IH.
Qed.

(** *** Padding *)

Lemma pad_amount (len : nat) :
  (1 ≤ blockSize - len mod blockSize ≤ blockSize)%nat.
Proof.
  unfold blockSize.
  pose proof (Nat.mod_upper_bound len 16 ltac:(lia)). lia.
Qed.

Lemma length_pad (m : list ascii) :
  (length (pad m) = blockSize * S (length m / blockSize))%nat.
Proof.
  unfold pad. rewrite length_app, length_replicate. unfold blockSize.
  pose proof (Nat.div_mod_eq (length m) 16).
  pose proof (Nat.mod_upper_bound (length m) 16 ltac:(lia)). lia.
Qed.

Lemma forallb_replicate (c : ascii) (n : nat) :
  forallb (Ascii.eqb c) (replicate n c) = true.
Proof.
  induction n as [| n IH]; cbn [replicate forallb]; [reflexivity |].
  now rewrite Ascii.eqb_refl, IH.
Qed.

Lemma unpad_pad (m : list ascii) : unpad (pad m) = Some m.
Proof.
  unfold unpad, pad.
  pose proof (pad_amount (length m)) as Hn.
  set (n := (blockSize - length m mod blockSize)%nat) in *.
  destruct n as [| n'] eqn:En; [lia |].
  rewrite replicate_S_end, app_assoc, last_snoc.
  rewrite <- app_assoc, <- replicate_S_end.
  rewrite nat_ascii_embedding by (unfold blockSize in Hn; lia).
  rewrite length_app, length_replicate.
  replace (length m + S n' - S n')%nat with (length m) by lia.
  rewrite drop_app_length, take_app_length, forallb_replicate.
  destruct (Nat.leb_spec 1 (S n')); [| lia].
  destruct (Nat.leb_spec (S n') blockSize); [| lia].
  destruct (Nat.leb_spec (S n') (length m + S n')); [| lia].
  reflexivity.
Qed.

(** *** The two modes *)

Section Modes.

Variable f g : list ascii → list ascii.
Hypothesis g_f : ∀ b, length b = blockSize → g (f b) = b.
Hypothesis f_length : ∀ b, length b = blockSize → length (f b) = blockSize.

Lemma length_mapBlocks (n : nat) (m : list ascii) :
  length m = (blockSize * n)%nat →
  length (mapBlocks n f m) = (blockSize * n)%nat.
Proof.
  revert m. induction n as [| n IH]; intros m Hm; [reflexivity |].
  cbn [mapBlocks]. rewrite length_app, f_length, IH.
  - lia.
  - rewrite length_drop. lia.
  - rewrite length_take. lia.
Qed.

Lemma mapBlocks_back (n : nat) (m : list ascii) :
  length m = (blockSize * n)%nat →
  mapBlocks n g (mapBlocks n f m) = m.
Proof.
  revert m. induction n as [| n IH]; intros m Hm.
  - destruct m; [reflexivity | cbn in Hm; lia].
  - cbn [mapBlocks].
    assert (Hb : length (take blockSize m) = blockSize)
      by (rewrite length_take; lia).
    rewrite take_app_length' by (now rewrite f_length).
    rewrite drop_app_length' by (now rewrite f_length).
    rewrite g_f by exact Hb.
    rewrite IH by (rewrite length_drop; lia).
    apply take_drop.
Qed.

Lemma xorByte_back (a b : ascii) : xorByte (xorByte a b) b = a.
Proof.
  destruct a as [a0 a1 a2 a3 a4 a5 a6 a7], b as [b0 b1 b2 b3 b4 b5 b6 b7].
  cbn [xorByte].
  now rewrite !xorb_assoc, !xorb_nilpotent, !xorb_false_r.
Qed.

Lemma xorBytes_back (a b : list ascii) :
  length a = length b → xorBytes (xorBytes a b) b = a.
Proof.
  unfold xorBytes. revert b.
  induction a as [| x a IH]; intros [| y b] Hlen; try easy.
  cbn [zip_with]. rewrite xorByte_back, IH; [reflexivity |].
  cbn in Hlen. lia.
Qed.

Lemma length_xorBytes (a b : list ascii) :
  length a = length b → length (xorBytes a b) = length a.
Proof.
  unfold xorBytes. intros H. rewrite length_zip_with. lia.
Qed.

Lemma chain_back (n : nat) (prev m : list ascii) :
  length prev = blockSize →
  length m = (blockSize * n)%nat →
  chainDecrypt n g prev (chainEncrypt n f prev m) = m.
Proof.
  revert prev m. induction n as [| n IH]; intros prev m Hp Hm.
  - destruct m; [reflexivity | cbn in Hm; lia].
  - cbn [chainEncrypt chainDecrypt].
    assert (Hb : length (take blockSize m) = blockSize)
      by (rewrite length_take; lia).
    assert (Hx : length (xorBytes (take blockSize m) prev) = blockSize)
      by (rewrite length_xorBytes; lia).
    rewrite take_app_length' by (now rewrite f_length).
    rewrite drop_app_length' by (now rewrite f_length).
    rewrite g_f by exact Hx.
    rewrite xorBytes_back by lia.
    rewrite IH.
    + apply take_drop.
    + now apply f_length.
    + rewrite length_drop. lia.
Qed.

Lemma length_chainEncrypt (n : nat) (prev m : list ascii) :
  length prev = blockSize →
  length m = (blockSize * n)%nat →
  length (chainEncrypt n f prev m) = (blockSize * n)%nat.
Proof.
  revert prev m. induction n as [| n IH]; intros prev m Hp Hm;
    [reflexivity |].
  cbn [chainEncrypt].
  assert (Hx : length (xorBytes (take blockSize m) prev) = blockSize)
    by (rewrite length_xorBytes; rewrite length_take; lia).
  rewrite length_app, f_length, IH.
  - lia.
  - now apply f_length.
  - rewrite length_drop. lia.
  - exact Hx.
Qed.

End Modes.

Section Cipher.

Variable encryptBlock decryptBlock : list ascii → list ascii → list ascii.
Hypothesis decrypt_encrypt :
  ∀ key b, length b = blockSize → decryptBlock key (encryptBlock key b) = b.
Hypothesis encrypt_length :
  ∀ key b, length b = blockSize → length (encryptBlock key b) = blockSize.

Lemma blocks_of_pad (m : list ascii) :
  (length (pad m) / blockSize = S (length m / blockSize))%nat.
Proof.
  rewrite length_pad, Nat.mul_comm. apply Nat.div_mul. discriminate.
Qed.

(** Electronic-codebook mode is undone block by block. *)
Lemma ecb_back (key m : list ascii) :
  ecbDecrypt decryptBlock key (ecbEncrypt encryptBlock key m) = Some m.
Proof.
  unfold ecbDecrypt, ecbEncrypt. cbn zeta. rewrite blocks_of_pad.
  set (n := S (length m / blockSize)).
  assert (Hp : length (pad m) = (blockSize * n)%nat) by apply length_pad.
  rewrite (length_mapBlocks _ (encrypt_length key) n (pad m) Hp).
  rewrite Nat.mul_comm, Nat.Div0.mod_mul, Nat.div_mul by discriminate.
  cbn [Nat.eqb].
  rewrite (mapBlocks_back _ _ (decrypt_encrypt key) (encrypt_length key))
    by exact Hp.
  apply unpad_pad.
Qed.

(** Cipher-block-chaining mode is undone with the same vector. *)
Lemma cbc_back (iv key m : list ascii) :
  length iv = blockSize →
  cbcDecrypt decryptBlock iv key (cbcEncrypt encryptBlock iv key m) = Some m.
Proof.
  intros Hiv. unfold cbcDecrypt, cbcEncrypt. cbn zeta. rewrite blocks_of_pad.
  set (n := S (length m / blockSize)).
  assert (Hp : length (pad m) = (blockSize * n)%nat) by apply length_pad.
  rewrite (length_chainEncrypt _ (encrypt_length key) n iv (pad m) Hiv Hp).
  rewrite Nat.mul_comm, Nat.Div0.mod_mul, Nat.div_mul by discriminate.
  cbn [Nat.eqb].
  rewrite (chain_back _ _ (decrypt_encrypt key) (encrypt_length key))
    by assumption.
  apply unpad_pad.
Qed.

End Cipher.

(** *** Taking [path-body-digest] apart *)

Lemma stripPrefix_app (p s : string) : stripPrefix p (p +:+ s) = Some s.
Proof.
  induction p as [| a p IH]; cbn [stripPrefix String.append].
  - now destruct s.
  - now rewrite Ascii.eqb_refl.
Qed.

Lemma cutLast_none (c : ascii) (s : string) :
  Url.contains c s = false → cutLast c s = None.
Proof.
  induction s as [| d s IH]; cbn [Url.contains cutLast]; [reflexivity |].
  intros H. apply orb_false_elim in H as [Hc Hs]. now rewrite IH, Hc.
Qed.

Lemma cutLast_app (c : ascii) (a b : string) :
  Url.contains c b = false → cutLast c (a +:+ String c b) = Some (a, b).
Proof.
  intros Hb. induction a as [| d a IH]; cbn [cutLast String.append].
  - now rewrite cutLast_none, Ascii.eqb_refl.
  - now rewrite IH.
Qed.

(** C2: for a block cipher that decrypts what it encrypts, and for [params]
    that [JSON.parse] reads back from what [JSON.stringify] writes, decoding
    the wire form of any of the three variants gives [params] back. For the
    ENCRYPTED variant the signed text [path-body-digest] comes back exactly
    under the fixed key, its digest checks and its body parses; a response
    encrypted with the fixed key decodes to its value. For the LINUX
    variant the [eparams] field opens to [params]. For the WEB variant the
    [params] field opens to [params] for who holds the random key, and
    [encSecKey] is left alone. *)
Theorem codec_round_trip
    (encryptBlock decryptBlock : list ascii → list ascii → list ascii)
    (digest : string → string)
    (stringify : json → string) (parseJSON : string → option json)
    (eapiKey linuxKey presetKey iv : list ascii)
    (signConstant : string)
    (randomKey : list ascii) (publicEncrypt : list ascii → string)
    (path : string) (params : json) :
  (∀ key b, length b = blockSize →
            decryptBlock key (encryptBlock key b) = b) →
  (∀ key b, length b = blockSize →
            length (encryptBlock key b) = blockSize) →
  length iv = blockSize →
  (∀ s, Url.contains "-" (digest s) = false) →
  parseJSON (stringify params) = Some params →
  parseJSON (stringify (envelope path params)) =
    Some (envelope path params) →
  (∀ v : variant,
     decode decryptBlock digest parseJSON eapiKey linuxKey presetKey iv
       signConstant randomKey v path
       (encode encryptBlock digest stringify eapiKey linuxKey presetKey iv
          signConstant randomKey publicEncrypt v path params) =
     Some params) ∧
  decodeEApi decryptBlock parseJSON eapiKey
    (ecbEncrypt encryptBlock eapiKey
       (list_ascii_of_string (stringify params))) = Some params.
Proof.
  intros Hinv Hlen Hiv Hdigest Hparams Henvelope.
  split; [intros [| |]; cbn [decode encode] |].
  - (* WEB *)
    change (formField "params" (("params", ?a) :: ?r)) with (Some a).
    cbn [mbind option_bind]. unfold openWeb, encodeWeb. cbn [fst].
    rewrite hexDecode_encode. cbn [mbind option_bind].
    rewrite (cbc_back _ _ Hinv Hlen) by exact Hiv. cbn [mbind option_bind].
    rewrite (cbc_back _ _ Hinv Hlen) by exact Hiv. cbn [mbind option_bind].
    now rewrite string_of_list_ascii_of_string.
  - (* ENCRYPTED *)
    change (formField "params" (("params", ?a) :: ?r)) with (Some a).
    cbn [mbind option_bind]. unfold openEApi, encodeEApi. cbn zeta.
    rewrite hexDecode_encode. cbn [mbind option_bind].
    rewrite (ecb_back _ _ Hinv Hlen). cbn [mbind option_bind].
    rewrite string_of_list_ascii_of_string.
    rewrite <- (UrlFacts.append_assoc path "-"), stripPrefix_app.
    cbn [mbind option_bind].
    change ("-" +:+ ?d) with (String "-" d).
    rewrite cutLast_app by apply Hdigest.
    cbn [mbind option_bind]. now rewrite String.eqb_refl.
  - (* LINUX *)
    change (formField "eparams" (("eparams", ?a) :: ?r)) with (Some a).
    cbn [mbind option_bind]. unfold openLinux, encodeLinux.
    rewrite hexDecode_encode. cbn [mbind option_bind].
    rewrite (ecb_back _ _ Hinv Hlen). cbn [mbind option_bind].
    rewrite string_of_list_ascii_of_string, Henvelope. reflexivity.
  - unfold decodeEApi.
    rewrite (ecb_back _ _ Hinv Hlen). cbn [mbind option_bind].
    now rewrite string_of_list_ascii_of_string, Hparams.
Qed.

(** The codec on the sample cipher, for the path [/api/x] and the
    parameter 1. *)
Lemma codec_round_trip_witness :
  (∀ v : variant,
     decode toyCipher toyDigest toyParse toyKey toyKey toyKey toyKey
       "sign" toyKey v "/api/x"
       (encode toyCipher toyDigest toyStringify toyKey toyKey toyKey toyKey
          "sign" toyKey (fun _ => "") v "/api/x" (JNumber 1)) =
     Some (JNumber 1)) ∧
  decodeEApi toyCipher toyParse toyKey
    (ecbEncrypt toyCipher toyKey
       (list_ascii_of_string (toyStringify (JNumber 1)))) =
    Some (JNumber 1).
Proof.
  apply (codec_round_trip toyCipher toyCipher toyDigest toyStringify
           toyParse toyKey toyKey toyKey toyKey "sign" toyKey (fun _ => "")
           "/api/x" (JNumber 1)).
  - intros key b _. apply rev_involutive.
  - intros key b Hb. unfold toyCipher. now rewrite List.length_rev.
  - reflexivity.
  - reflexivity.
  - reflexivity.
  - reflexivity.
Defined.

(** The wire form of the ENCRYPTED variant in that case. *)
Example encode_sample :
  encode toyCipher toyDigest toyStringify toyKey toyKey toyKey toyKey
    "sign" toyKey (fun _ => "") ENCRYPTED "/api/x" (JNumber 1) =
  [("params", "060606060606442D312D782F6970612F")].
Proof. reflexivity. Qed.

End CodecFacts.

(** ** More on lyrics *)

Module LyricMore.
Import Lyric.

Lemma insertBy_perm (a : line) (l : list line) :
  insertBy byTimestamp a l ≡ₚ a :: l.
Proof.
  induction l as [| b rest IH]; cbn [insertBy]; [reflexivity |].
  destruct (byTimestamp a b <=? 0); [reflexivity |].
  rewrite IH. apply Permutation_swap.
Qed.

(** Sorting loses no line and adds none. *)
Lemma sort_perm (l : list line) : sort byTimestamp l ≡ₚ l.
Proof.
  unfold sort. induction l as [| a l IH]; cbn [foldr]; [reflexivity |].
  now rewrite insertBy_perm, IH.
Qed.

(** The loop leaves the time and the text of every line alone. *)
Lemma mergeLoop_keys (ml tl : list line) :
  map (fun l => (timestamp l, content l)) (mergeLoop ml tl) =
  map (fun l => (timestamp l, content l)) ml.
Proof.
  revert tl. induction ml as [| m ml IH]; intros tl; [reflexivity |].
  induction tl as [| t tl IHtl]; [reflexivity |].
  cbn [mergeLoop] in *.
  destruct (timestamp m =? timestamp t).
  - cbn [map setTrans timestamp content]. now rewrite IH.
  - destruct (timestamp m <? timestamp t).
    + cbn [map]. now rewrite IH.
    + exact IHtl.
Qed.

(** A translation that the loop leaves on a line was there before, or is
    the text of a translated line of the same time. *)
Lemma mergeLoop_sound (ml tl : list line) (r : line) (s : string) :
  r ∈ mergeLoop ml tl → trans r = Some s →
  (∃ m, m ∈ ml ∧ trans m = Some s) ∨
  (∃ t, t ∈ tl ∧ timestamp t = timestamp r ∧ content t = s).
Proof.
  revert tl. induction ml as [| m ml IH]; intros tl.
  - cbn [mergeLoop]. intros Hin. inversion Hin.
  - induction tl as [| t tl IHtl].
    + cbn [mergeLoop]. intros Hin Hs. left. eauto.
    + cbn [mergeLoop] in *.
      destruct (Z.eqb_spec (timestamp m) (timestamp t)) as [Heq | Hne].
      * intros Hin Hs. apply elem_of_cons in Hin as [-> | Hin].
        -- cbn [setTrans trans timestamp] in *. injection Hs as <-.
           right. exists t. split; [left | auto].
        -- destruct (IH tl Hin Hs) as [(m' & Hm' & Ht) | (t' & Ht' & Hts)].
           ++ left. exists m'. split; [now right | exact Ht].
           ++ right. exists t'. split; [now right | exact Hts].
      * destruct (timestamp m <? timestamp t).
        -- intros Hin Hs. apply elem_of_cons in Hin as [-> | Hin].
           ++ left. exists m. split; [left | exact Hs].
           ++ destruct (IH (t :: tl) Hin Hs)
                as [(m' & Hm' & Ht) | (t' & Ht' & Hts)].
              ** left. exists m'. split; [now right | exact Ht].
              ** right. eauto.
        -- intros Hin Hs.
           destruct (IHtl Hin Hs) as [Hl | (t' & Ht' & Hts)]; [now left |].
           right. exists t'. split; [now right | exact Hts].
Qed.

Lemma mergeLoop_timestamp_in (ml tl : list line) (r : line) :
  r ∈ mergeLoop ml tl → timestamp r ∈ map timestamp ml.
Proof.
  intros Hin. rewrite <- (LyricFacts.mergeLoop_timestamps ml tl).
  now apply list_elem_of_fmap_2.
Qed.

(** With the lines in strict order of time and the translated lines in
    order, every line at the time of a translated line gets the text of
    one. *)
Lemma mergeLoop_complete (ml tl : list line) (r t : line) :
  StronglySorted Z.lt (map timestamp ml) →
  StronglySorted Z.le (map timestamp tl) →
  r ∈ mergeLoop ml tl → t ∈ tl → timestamp t = timestamp r →
  ∃ t', t' ∈ tl ∧ timestamp t' = timestamp r ∧ trans r = Some (content t').
Proof.
  revert tl. induction ml as [| m ml IH]; intros tl Hml.
  - cbn [mergeLoop]. intros _ Hin. inversion Hin.
  - cbn [map] in Hml. inversion Hml as [| ? ? Hml' Hm]; subst.
    rewrite Forall_forall in Hm.
    induction tl as [| t0 tl IHtl]; intros Htl Hin Ht Hts.
    + inversion Ht.
    + cbn [map] in Htl. inversion Htl as [| ? ? Htl' Ht0]; subst.
      rewrite Forall_forall in Ht0.
      cbn [mergeLoop] in Hin.
      destruct (Z.eqb_spec (timestamp m) (timestamp t0)) as [Heq | Hne].
      * apply elem_of_cons in Hin as [-> | Hin].
        -- exists t0. cbn [setTrans trans timestamp]. split; [left | auto].
        -- assert (Hr : timestamp m < timestamp r).
           { apply Hm. now apply mergeLoop_timestamp_in in Hin. }
           apply elem_of_cons in Ht as [-> | Ht]; [lia |].
           destruct (IH tl Hml' Htl' Hin Ht Hts) as (t' & Ht' & Hrest).
           exists t'. split; [now right | exact Hrest].
      * destruct (Z.ltb_spec (timestamp m) (timestamp t0)) as [Hlt | Hge].
        -- apply elem_of_cons in Hin as [-> | Hin].
           ++ apply elem_of_cons in Ht as [-> | Ht]; [lia |].
              assert (timestamp t0 ≤ timestamp t).
              { apply Ht0. now apply list_elem_of_fmap_2. }
              lia.
           ++ exact (IH (t0 :: tl) Hml' Htl Hin Ht Hts).
        -- change (r ∈ mergeLoop (m :: ml) tl) in Hin.
           assert (Hr : timestamp m ≤ timestamp r).
           { pose proof (mergeLoop_timestamp_in _ _ _ Hin) as Hin'.
             cbn [map] in Hin'. rename Hin' into Hin0.
             apply elem_of_cons in Hin0 as [-> | Hin0]; [lia |].
             apply Hm in Hin0. lia. }
           apply elem_of_cons in Ht as [-> | Ht]; [lia |].
           destruct (IHtl Htl' Hin Ht Hts) as (t' & Ht' & Hrest).
           exists t'. split; [now right | exact Hrest].
Qed.

Lemma sorted_strict (l : list Z) :
  StronglySorted Z.le l → NoDup l → StronglySorted Z.lt l.
Proof.
  induction l as [| a l IH]; intros Hs Hd; [constructor |].
  inversion Hs as [| ? ? Hs' Ha]; subst.
  apply NoDup_cons in Hd as [Hnotin Hd].
  constructor; [now apply IH |].
  rewrite Forall_forall in Ha |- *. intros x Hx.
  specialize (Ha x Hx).
  assert (x ≠ a) by (intros ->; contradiction). lia.
Qed.

(** What [getMusicLyric] resolves with when the lyric parses to lines and
    there is a translation. *)
Lemma getMusicLyric_merged (parse : string → lrc) (tmp : response)
    (text ttext : string) (res : result) :
  present (tmp_lrc tmp) = Some text →
  present (tmp_tlyric tmp) = Some ttext →
  getMusicLyric parse (Resolved tmp) = Resolved res →
  lyrics (parse text) ≠ [] ∧
  let lines := mergeLoop (sort byTimestamp (lyrics (parse text)))
                 (sort byTimestamp (lyrics (parse ttext))) in
  res = {| r_lrc := Some {| info := info (parse text); lyrics := lines |};
           r_txtLyric := None;
           r_lyricUser := Some (tmp_lyricUser tmp);
           r_transUser := Some (tmp_transUser tmp);
           r_mlrc := Some {| m_info := info (parse text);
                             m_transInfo := info (parse ttext);
                             m_lyrics := lines |} |}.
Proof.
  intros Hl Ht. unfold getMusicLyric, translatedPart, originalPart.
  rewrite Hl, Ht.
  destruct (lyrics (parse text)) as [| a rest] eqn:Hlines; cbn.
  - discriminate.
  - intros [= <-]. split; [discriminate | reflexivity].
Qed.

(** X1: without a translation, a lyric that parses to at least one line
    comes back as [lrc] with the same [info] and the same lines, none lost
    and none added, in the order of their timestamps; no [txtLyric], no
    [mlrc] and no [transUser] are set. *)
Theorem getMusicLyric_untranslated (parse : string → lrc) (tmp : response)
    (text : string) :
  present (tmp_tlyric tmp) = None →
  present (tmp_lrc tmp) = Some text →
  lyrics (parse text) ≠ [] →
  ∃ l,
    getMusicLyric parse (Resolved tmp) =
      Resolved {| r_lrc := Some l; r_txtLyric := None;
                  r_lyricUser := Some (tmp_lyricUser tmp);
                  r_transUser := None; r_mlrc := None |} ∧
    info l = info (parse text) ∧
    lyrics l ≡ₚ lyrics (parse text) ∧
    sortedByTimestamp (lyrics l).
Proof.
  intros Ht Hl Hlines. unfold getMusicLyric, translatedPart, originalPart.
  rewrite Hl, Ht.
  destruct (lyrics (parse text)) as [| a rest] eqn:Hp; [contradiction |].
  cbn. eexists. split; [reflexivity |]. cbn.
  split; [reflexivity |].
  split; [apply (sort_perm (a :: rest)) |
          apply (LyricFacts.sort_sorted (a :: rest))].
Qed.

Lemma getMusicLyric_untranslated_witness :
  ∃ l,
    getMusicLyric charLines (Resolved Samples.untranslated) =
      Resolved {| r_lrc := Some l; r_txtLyric := None;
                  r_lyricUser := Some VUndefined;
                  r_transUser := None; r_mlrc := None |} ∧
    info l = [] ∧
    lyrics l ≡ₚ lyrics (charLines "cab") ∧
    sortedByTimestamp (lyrics l).
Proof.
  apply (getMusicLyric_untranslated charLines Samples.untranslated "cab");
    [reflexivity | reflexivity | discriminate].
Defined.

(** X2: with a translation, [mlrc.lyrics] and [lrc.lyrics] hold the same
    lines, and these are the lines of the parsed lyric, each with its
    timestamp and its content, none lost and none added: the merge only
    writes [trans]. *)
Theorem getMusicLyric_keeps_lines (parse : string → lrc) (tmp : response)
    (text ttext : string) (res : result) :
  present (tmp_lrc tmp) = Some text →
  present (tmp_tlyric tmp) = Some ttext →
  getMusicLyric parse (Resolved tmp) = Resolved res →
  ∃ l m,
    r_lrc res = Some l ∧ r_mlrc res = Some m ∧
    lyrics l = m_lyrics m ∧
    map (fun x => (timestamp x, content x)) (m_lyrics m) ≡ₚ
    map (fun x => (timestamp x, content x)) (lyrics (parse text)).
Proof.
  intros Hl Ht Hres.
  destruct (getMusicLyric_merged parse tmp text ttext res Hl Ht Hres)
    as [_ ->].
  cbn zeta. do 2 eexists. cbn [r_lrc r_mlrc].
  split; [reflexivity |]. split; [reflexivity |].
  cbn [lyrics m_lyrics]. split; [reflexivity |].
  rewrite mergeLoop_keys. apply fmap_Permutation, sort_perm.
Qed.

Lemma getMusicLyric_keeps_lines_witness :
  ∃ l m,
    r_lrc Samples.translated = Some l ∧
    r_mlrc Samples.translated = Some m ∧
    lyrics l = m_lyrics m ∧
    map (fun x => (timestamp x, content x)) (m_lyrics m) ≡ₚ
    map (fun x => (timestamp x, content x)) (lyrics (charLines "ba")).
Proof.
  apply (getMusicLyric_keeps_lines charLines sampleResponse "ba" "b");
    reflexivity.
Defined.

(** X3: when the parsed lines carry no translation of their own, a line of
    [mlrc.lyrics] has a [trans] only if a line of the translated lyric has
    its timestamp, and [trans] is then the content of such a line. *)
Theorem getMusicLyric_trans_sound (parse : string → lrc) (tmp : response)
    (text ttext : string) (res : result) (m : merged) (r : line)
    (s : string) :
  present (tmp_lrc tmp) = Some text →
  present (tmp_tlyric tmp) = Some ttext →
  Forall (fun l => trans l = None) (lyrics (parse text)) →
  getMusicLyric parse (Resolved tmp) = Resolved res →
  r_mlrc res = Some m →
  r ∈ m_lyrics m → trans r = Some s →
  ∃ t, t ∈ lyrics (parse ttext) ∧ timestamp t = timestamp r ∧
       content t = s.
Proof.
  intros Hl Ht Hnone Hres Hm Hr Hs.
  destruct (getMusicLyric_merged parse tmp text ttext res Hl Ht Hres)
    as [_ ->].
  cbn in Hm. injection Hm as <-. cbn [m_lyrics] in Hr.
  destruct (mergeLoop_sound _ _ r s Hr Hs)
    as [(m' & Hm' & Hold) | (t & Hin & Hts & Hc)].
  - rewrite sort_perm in Hm'. rewrite Forall_forall in Hnone.
    rewrite (Hnone m' Hm') in Hold. discriminate.
  - exists t. rewrite sort_perm in Hin. auto.
Qed.

Lemma getMusicLyric_trans_sound_witness :
  ∃ t, t ∈ lyrics (charLines "b") ∧ timestamp t = 98 ∧ content t = "b".
Proof.
  apply (getMusicLyric_trans_sound charLines sampleResponse "ba" "b"
           Samples.translated
           {| m_info := []; m_transInfo := [];
              m_lyrics :=
                [ {| timestamp := 97; content := "a"; trans := None |};
                  {| timestamp := 98; content := "b";
                     trans := Some "b" |} ] |}
           {| timestamp := 98; content := "b"; trans := Some "b" |} "b");
    try reflexivity.
  - repeat constructor.
  - right. left.
Defined.

(** X4: when no two lines of the parsed lyric have the same timestamp,
    every line of [mlrc.lyrics] whose timestamp is that of a line of the
    translated lyric has a [trans], the content of such a line. *)
Theorem getMusicLyric_trans_complete (parse : string → lrc) (tmp : response)
    (text ttext : string) (res : result) (m : merged) (r t : line) :
  present (tmp_lrc tmp) = Some text →
  present (tmp_tlyric tmp) = Some ttext →
  NoDup (map timestamp (lyrics (parse text))) →
  getMusicLyric parse (Resolved tmp) = Resolved res →
  r_mlrc res = Some m →
  r ∈ m_lyrics m → t ∈ lyrics (parse ttext) →
  timestamp t = timestamp r →
  ∃ t', t' ∈ lyrics (parse ttext) ∧ timestamp t' = timestamp r ∧
        trans r = Some (content t').
Proof.
  intros Hl Ht Hdup Hres Hm Hr Hin Hts.
  destruct (getMusicLyric_merged parse tmp text ttext res Hl Ht Hres)
    as [_ ->].
  cbn in Hm. injection Hm as <-. cbn [m_lyrics] in Hr.
  assert (Hstrict : StronglySorted Z.lt
            (map timestamp (sort byTimestamp (lyrics (parse text))))).
  { apply sorted_strict; [apply LyricFacts.sort_sorted |].
    now rewrite sort_perm. }
  rewrite <- (sort_perm (lyrics (parse ttext))) in Hin.
  destruct (mergeLoop_complete _ _ r t Hstrict
              (LyricFacts.sort_sorted _) Hr Hin Hts) as (t' & Ht' & Hrest).
  exists t'. rewrite sort_perm in Ht'. auto.
Qed.

Lemma getMusicLyric_trans_complete_witness :
  ∃ t', t' ∈ lyrics (charLines "b") ∧ timestamp t' = 98 ∧
        Some "b" = Some (content t').
Proof.
  apply (getMusicLyric_trans_complete charLines sampleResponse "ba" "b"
           Samples.translated
           {| m_info := []; m_transInfo := [];
              m_lyrics :=
                [ {| timestamp := 97; content := "a"; trans := None |};
                  {| timestamp := 98; content := "b";
                     trans := Some "b" |} ] |}
           {| timestamp := 98; content := "b"; trans := Some "b" |}
           {| timestamp := 98; content := "b"; trans := None |});
    try reflexivity.
  - cbn. apply NoDup_cons. split; [| apply NoDup_singleton].
    rewrite list_elem_of_singleton. discriminate.
  - right. left.
  - left.
Defined.

End LyricMore.

(** ** More on the walks of the cache directories *)

Module DiskMoreFacts.
Import Disk DiskMore.

(** When [Promise.all] resolves, every promise did, in order. *)
Lemma all_resolved {A : Type} (ps : list (promise A)) (l : list A) :
  all ps = Resolved l → ps = map Resolved l.
Proof.
  revert l. induction ps as [| p rest IH]; intros l; cbn [all].
  - now intros [= <-].
  - destruct p as [a | e |]; destruct (all rest) as [l' | e' |];
      try discriminate.
    intros [= <-]. cbn [map]. now rewrite (IH l' eq_refl).
Qed.

(** C8 as the specification has it fails: a tree of files and directories
    alone does not make [getDiskUsage] resolve. In a directory that cannot
    be searched, [lstat] of the entry fails and the promise is rejected
    with that error, which [getDataSize] reports with [ok] false. *)
Lemma getDiskUsage_needs_access :
  ¬ (∀ root : node,
       regularOnly root = true →
       getDiskUsage true root = Resolved (specUsage root)).
Proof.
  intros H. specialize (H unsearchableMusic eq_refl).
  vm_compute in H. discriminate.
Qed.

(** The same tree through [getDiskUsage] and [getDataSize]. *)
Example getDiskUsage_unsearchable :
  getDiskUsage true unsearchableMusic = Rejected EACCES ∧
  getDataSize (Dir rwx [("musicCache", unsearchableMusic)]) Music =
    Resolved {| ok := false; size := 0; msg := Some EACCES |}.
Proof. split; reflexivity. Qed.

(** X5: whenever [getDiskUsage] resolves, on any tree and whatever the
    permissions, it resolves with the size of the specification: the sizes
    of the files and links below the path, directories not counted. *)
Theorem getDiskUsage_sound (searchable : bool) (n : node) (total : Z) :
  getDiskUsage searchable n = Resolved total → total = specUsage n.
Proof.
  revert searchable total.
  induction n as [size st | size | p entries IH |] using
    DiskFacts.node_nested_ind; intros searchable total;
    cbn [getDiskUsage specUsage]; destruct searchable; cbn [negb];
    try discriminate; try (now intros [= <-]).
  destruct (r p); [| discriminate].
  destruct (all (map (fun e => getDiskUsage (x p) e.2) entries))
    as [sizes | e |] eqn:Hall; try discriminate.
  intros [= <-]. apply all_resolved in Hall.
  clear -IH Hall. revert sizes Hall.
  induction entries as [| e rest IHrest]; intros sizes Hall.
  - destruct sizes; [reflexivity | discriminate].
  - destruct sizes as [| z sizes]; [discriminate |].
    cbn [map] in Hall. injection Hall as Hz Hrest.
    inversion IH as [| ? ? IHe IHr]; subst.
    rewrite DiskFacts.reduceSum_cons. cbn [foldr].
    rewrite (IHe _ _ Hz), (IHrest IHr sizes Hrest). reflexivity.
Qed.

Lemma getDiskUsage_sound_witness :
  getDiskUsage true sampleMusic = Resolved 4407 ∧
  4407 = specUsage sampleMusic.
Proof.
  split; [reflexivity |].
  apply (getDiskUsage_sound true sampleMusic 4407). reflexivity.
Defined.

(** X6: [removeRecursive] removes no directory and makes none, on any tree
    and whatever the permissions and the outcome: the directories below the
    path are the same after the walk as before. *)
Theorem removeRecursive_keeps_dirs (searchable writable : bool) (n : node) :
  dirsLeft (removeRecursive searchable writable n).2 = dirs n.
Proof.
  revert searchable writable.
  induction n as [size st | size | p entries IH |] using
    DiskFacts.node_nested_ind; intros searchable writable;
    cbn [removeRecursive]; destruct searchable; cbn [negb];
    try reflexivity.
  - now destruct writable.
  - now destruct writable.
  - destruct (r p); [| reflexivity].
    cbn [snd dirsLeft from_option dirs]. f_equal.
    induction entries as [| e rest IHrest]; [reflexivity |].
    inversion IH as [| ? ? IHe IHr]; subst.
    cbn [map]. csimpl. specialize (IHe (x p) (w p && x p)).
    destruct (removeRecursive (x p) (w p && x p) e.2) as [pr [c |]];
      cbn [snd dirsLeft from_option] in IHe; csimpl.
    + rewrite IHe. f_equal. apply (IHrest IHr).
    + rewrite <- IHe. cbn [app]. apply (IHrest IHr).
Qed.

Lemma plain_weaken (n : node) : plain true n = true → plain false n = true.
Proof.
  induction n as [size st | size | p entries IH |] using
    DiskFacts.node_nested_ind; cbn [plain negb orb]; try easy.
  intros H. apply andb_prop in H as [H Hall]. apply andb_prop in H as [H _].
  rewrite H, andb_true_r. cbn [andb].
  induction entries as [| e rest IHrest]; [reflexivity |].
  inversion IH as [| ? ? IHe IHr]; subst.
  cbn [forallb] in *. apply andb_prop in Hall as [He Hrest].
  now rewrite (IHe He), (IHrest IHr Hrest).
Qed.

(** What the walk leaves of a plain tree is plain, holds no byte, and is
    left as it is by another walk. *)
Lemma skeleton_plain (n : node) :
  plain true n = true →
  match skeleton n with
  | None => True
  | Some k => plain true k = true ∧ specUsage k = 0 ∧ skeleton k = Some k
  end.
Proof.
  induction n as [size st | size | p entries IH |] using
    DiskFacts.node_nested_ind; cbn [plain skeleton]; try easy.
  intros H. apply andb_prop in H as [Hp Hall].
  cbn [plain specUsage skeleton]. rewrite Hp. cbn [andb].
  assert (Hkept :
    forallb (fun e => plain true e.2)
      (omap (fun e => pair e.1 <$> skeleton e.2) entries) = true ∧
    foldr (fun e acc => specUsage e.2 + acc) 0
      (omap (fun e => pair e.1 <$> skeleton e.2) entries) = 0 ∧
    omap (fun e => pair e.1 <$> skeleton e.2)
      (omap (fun e => pair e.1 <$> skeleton e.2) entries) =
    omap (fun e => pair e.1 <$> skeleton e.2) entries).
  { clear Hp. induction entries as [| e rest IHrest]; [easy |].
    inversion IH as [| ? ? IHe IHr]; subst.
    cbn [forallb] in Hall. apply andb_prop in Hall as [He Hrest].
    destruct (IHrest IHr Hrest) as (Hf & Hs & Ho).
    specialize (IHe He). csimpl.
    destruct (skeleton e.2) as [k |] eqn:Hk; csimpl; [| easy].
    destruct IHe as (Hkp & Hks & Hkk).
    cbn [forallb foldr snd fst]. rewrite Hkp, Hks, Hf, Hs, Hkk. csimpl.
    rewrite Ho. easy. }
  destruct Hkept as (-> & -> & ->). easy.
Qed.

(** X7: on a cache directory of files, links and directories that can be
    listed, searched and changed, [removeRecursive] resolves; asking
    [getDiskUsage] of what it leaves resolves with 0; and a second
    [removeRecursive] resolves too and changes nothing. *)
Theorem removeRecursive_then_usage (p : perm) (entries : list (string * node)) :
  plain true (Dir p entries) = true →
  ∃ rest,
    removeRecursive true true (Dir p entries) = (Resolved tt, Some rest) ∧
    getDiskUsage true rest = Resolved 0 ∧
    removeRecursive true true rest = (Resolved tt, Some rest).
Proof.
  intros Hplain.
  pose proof (skeleton_plain _ Hplain) as Hk.
  rewrite (DiskFacts.removeRecursive_plain _ Hplain).
  destruct (skeleton (Dir p entries)) as [k |] eqn:Hs; [| discriminate].
  destruct Hk as (Hkp & Hks & Hkk).
  exists k. split; [reflexivity |]. split.
  - rewrite (DiskFacts.getDiskUsage_plain k (plain_weaken k Hkp)).
    now rewrite Hks.
  - now rewrite (DiskFacts.removeRecursive_plain k Hkp), Hkk.
Qed.

Lemma removeRecursive_then_usage_witness :
  ∃ rest,
    removeRecursive true true sampleMusic = (Resolved tt, Some rest) ∧
    getDiskUsage true rest = Resolved 0 ∧
    removeRecursive true true rest = (Resolved tt, Some rest).
Proof.
  apply (removeRecursive_then_usage rwx
           [("12345h", File 4096 Complete); ("67890m", Symlink 11);
            ("old", Dir rwx [("1l", File 300 Complete)])]).
  reflexivity.
Defined.

Lemma specUsage_nonneg (n : node) : nonneg n = true → 0 ≤ specUsage n.
Proof.
  induction n as [size st | size | p entries IH |] using
    DiskFacts.node_nested_ind; cbn [nonneg specUsage]; try lia.
  intros Hall. induction entries as [| e rest IHrest]; cbn [foldr]; [lia |].
  inversion IH as [| ? ? IHe IHr]; subst.
  cbn [forallb] in Hall. apply andb_prop in Hall as [He Hrest].
  specialize (IHe He). specialize (IHrest IHr Hrest). lia.
Qed.

(** Two entries of different names weigh no more than the directory. *)
Lemma two_entries (entries : list (string * node)) (a b : string) :
  a ≠ b →
  forallb (fun e => nonneg e.2) entries = true →
  from_option specUsage 0 (entry a entries) +
  from_option specUsage 0 (entry b entries) ≤
  foldr (fun e acc => specUsage e.2 + acc) 0 entries.
Proof.
  intros Hab. induction entries as [| [k c] rest IH]; cbn [entry foldr snd];
    [cbn; lia |].
  cbn [forallb snd]. intros Hall. apply andb_prop in Hall as [Hc Hrest].
  specialize (IH Hrest). apply specUsage_nonneg in Hc.
  assert (0 ≤ from_option specUsage 0 (entry a rest)).
  { clear -Hrest. induction rest as [| [k' c'] rest IH]; cbn [entry];
      [cbn; lia |].
    cbn [forallb snd] in Hrest. apply andb_prop in Hrest as [Hc Hrest].
    destruct (String.eqb k' a); [cbn; now apply specUsage_nonneg | auto]. }
  assert (0 ≤ from_option specUsage 0 (entry b rest)).
  { clear -Hrest. induction rest as [| [k' c'] rest IH]; cbn [entry];
      [cbn; lia |].
    cbn [forallb snd] in Hrest. apply andb_prop in Hrest as [Hc Hrest].
    destruct (String.eqb k' b); [cbn; now apply specUsage_nonneg | auto]. }
  destruct (String.eqb_spec k a) as [Hka | Hka];
    destruct (String.eqb_spec k b) as [Hkb | Hkb];
    cbn [from_option]; try congruence; lia.
Qed.

Lemma entry_plain (entries : list (string * node)) (name : string)
    (c : node) :
  forallb (fun e => plain false e.2) entries = true →
  entry name entries = Some c → plain false c = true.
Proof.
  induction entries as [| [k c'] rest IH]; cbn [entry forallb snd];
    [discriminate |].
  intros Hall. apply andb_prop in Hall as [Hc Hrest].
  destruct (String.eqb k name); [now intros [= <-] | now apply IH].
Qed.

(** X8: on a data directory of files, links and directories on which no
    call fails and no size is negative, the three calls of [getDataSize]
    resolve, the one for ['all'] with [ok] true, and the size it reports is
    at least the sizes reported for ['music'] and ['lyric'] together. *)
Theorem getDataSize_all_covers (data : node) :
  plain false data = true → nonneg data = true →
  ∃ a m l,
    getDataSize data All = Resolved a ∧
    getDataSize data Music = Resolved m ∧
    getDataSize data Lyric = Resolved l ∧
    ok a = true ∧ size m + size l ≤ size a.
Proof.
  intros Hplain Hnn.
  unfold getDataSize, getDiskUsageAt. cbn [CachePath resolve].
  rewrite (DiskFacts.getDiskUsage_plain data Hplain). cbn [tryAwait].
  pose proof (specUsage_nonneg data Hnn) as Htotal.
  destruct data as [sz st | sz | p entries |].
  - do 3 eexists. repeat split. cbn in *. lia.
  - do 3 eexists. repeat split. cbn in *. lia.
  - cbn [plain] in Hplain. apply andb_prop in Hplain as [Hp Hall].
    apply andb_prop in Hp as [Hp _]. apply andb_prop in Hp as [_ Hx].
    rewrite Hx. cbn [nonneg] in Hnn.
    pose proof (two_entries entries "musicCache" "lyricCache"
                  ltac:(discriminate) Hnn) as Hsum.
    destruct (entry "musicCache" entries) as [mc |] eqn:Hm;
      destruct (entry "lyricCache" entries) as [lc |] eqn:Hl;
      cbn [from_option] in Hsum;
      rewrite ?(DiskFacts.getDiskUsage_plain _ (entry_plain _ _ _ Hall Hm)),
              ?(DiskFacts.getDiskUsage_plain _ (entry_plain _ _ _ Hall Hl));
      cbn [tryAwait]; do 3 eexists; repeat split; cbn [size specUsage]; lia.
  - cbn [plain] in Hplain. discriminate.
Qed.

Lemma getDataSize_all_covers_witness :
  ∃ a m l,
    getDataSize sampleData All = Resolved a ∧
    getDataSize sampleData Music = Resolved m ∧
    getDataSize sampleData Lyric = Resolved l ∧
    ok a = true ∧ size m + size l ≤ size a.
Proof. apply (getDataSize_all_covers sampleData); reflexivity. Defined.

(** X15: whenever the promise of [removeRecursive] resolves, on any tree and
    whatever the permissions, no file and no link is left below the path:
    [clearCache] does not report [ok] true over something it failed to
    unlink. *)
Theorem removeRecursive_resolved_clean (searchable writable : bool)
    (n : node) :
  (removeRecursive searchable writable n).1 = Resolved tt →
  linksLeft (removeRecursive searchable writable n).2 = 0%nat.
Proof.
  revert searchable writable.
  induction n as [size st | size | p entries IH |] using
    DiskFacts.node_nested_ind; intros searchable writable;
    cbn [removeRecursive]; destruct searchable; cbn [negb fst snd];
    try discriminate.
  - now destruct writable.
  - now destruct writable.
  - destruct (r p); [| discriminate]. cbn [fst snd].
    destruct (all _) as [us | e |] eqn:Hall; try discriminate.
    intros _. apply all_resolved in Hall.
    cbn [linksLeft from_option links].
    clear -IH Hall. revert us Hall.
    induction entries as [| e rest IHrest]; intros us Hall; [reflexivity |].
    destruct us as [| u us]; [discriminate |].
    cbn [map] in Hall. injection Hall as Hu Hrest.
    inversion IH as [| ? ? IHe IHr]; subst.
    cbn [map]. csimpl. cbn [fst snd] in Hu.
    assert (He : (removeRecursive (x p) (w p && x p) e.2).1 = Resolved tt)
      by (rewrite Hu; now destruct u).
    specialize (IHe _ _ He).
    destruct (removeRecursive (x p) (w p && x p) e.2) as [pr [c |]];
      cbn [snd linksLeft from_option] in IHe; csimpl.
    + cbn [foldr snd]. rewrite IHe. apply (IHrest IHr us Hrest).
    + apply (IHrest IHr us Hrest).
Qed.

Lemma removeRecursive_resolved_clean_witness :
  (removeRecursive true true savingMusic).1 = Resolved tt ∧
  linksLeft (removeRecursive true true savingMusic).2 = 0%nat.
Proof.
  split; [reflexivity |].
  apply (removeRecursive_resolved_clean true true savingMusic). reflexivity.
Defined.

(** A file in a directory that cannot be written stays, and the promise is
    rejected. *)
Example removeRecursive_stuck :
  removeRecursive true true stuckMusic =
  (Rejected EACCES,
   Some (Dir rwx [("old", Dir {| r := true; w := false; x := true |}
                            [("1l", File 300 Complete)])])).
Proof. reflexivity. Qed.

End DiskMoreFacts.

(** ** Requests that only forward to the client *)

Module ApiFacts.
Import Api.

#[local] Arguments String.append !s1 s2 / : simpl nomatch.

(** What [Comments.threadRegexp] matches, and the groups it gives: a word
    character, [_], two word characters, [_], one or two digits
    ([resType]), [_], and word characters to the end ([rid]). *)
Lemma threadRegexp_spec (thread resType rid : string) :
  threadRegexp thread = Some (resType, rid) ↔
  ∃ c0 c1 c2,
    thread = String c0 (String "_" (String c1 (String c2
               (String "_" (resType +:+ String "_" rid))))) ∧
    isWord c0 = true ∧ isWord c1 = true ∧ isWord c2 = true ∧
    (1 ≤ String.length resType ≤ 2)%nat ∧
    Url.allChars isDigit resType = true ∧
    rid ≠ "" ∧ Url.allChars isWord rid = true.
Proof.
  assert (Hrid : ∀ rt s, ridToEnd rt s = Some (resType, rid) ↔
            rt = resType ∧ s = String "_" rid ∧ rid ≠ "" ∧
            Url.allChars isWord rid = true).
  { intros rt s. unfold ridToEnd, wordsToEnd. destruct s as [| u s'].
    - split; [discriminate | now intros (_ & ? & _)].
    - destruct (Ascii.eqb_spec u "_") as [-> | Hu]; cbn [andb].
      + destruct (String.eqb_spec s' "") as [-> | Hne]; cbn [negb andb].
        * split; [discriminate |]. intros (_ & [= <-] & Hne & _).
          contradiction.
        * destruct (Url.allChars isWord s') eqn:Hw.
          -- split.
             ++ intros [= <- <-]. auto.
             ++ intros (-> & [= <-] & _). reflexivity.
          -- split; [discriminate |]. intros (_ & [= <-] & _ & Hw').
             congruence.
      + split; [discriminate |]. intros (_ & [= ? _] & _). congruence. }
  split.
  - unfold threadRegexp.
    destruct thread as [| c0 [| u0 [| c1 [| c2 [| u1 rest]]]]];
      try discriminate.
    destruct (isWord c0) eqn:H0; [| discriminate].
    destruct (Ascii.eqb_spec u0 "_") as [-> | ?]; [| discriminate].
    destruct (isWord c1) eqn:H1; [| discriminate].
    destruct (isWord c2) eqn:H2; [| discriminate].
    destruct (Ascii.eqb_spec u1 "_") as [-> | ?]; [| discriminate].
    cbn [andb]. unfold resTypeToEnd.
    destruct rest as [| d1 s1]; [discriminate |].
    destruct (isDigit d1) eqn:Hd1; [| discriminate].
    intros Hm. exists c0, c1, c2.
    destruct s1 as [| d2 s2].
    + cbn in Hm. discriminate.
    + destruct (isDigit d2) eqn:Hd2.
      * destruct (ridToEnd (String d1 (String d2 "")) s2) as [g |] eqn:Hg.
        -- injection Hm as ->. apply Hrid in Hg as (<- & -> & Hne & Hw).
           cbn [String.append String.length Url.allChars].
           rewrite Hd1, Hd2. repeat split; auto.
        -- apply Hrid in Hm as (<- & [= -> ->] & Hne & Hw).
           cbn [String.append String.length Url.allChars].
           rewrite Hd1. repeat split; auto.
      * apply Hrid in Hm as (<- & [= -> ->] & Hne & Hw).
        cbn [String.append String.length Url.allChars].
        rewrite Hd1. repeat split; auto.
  - intros (c0 & c1 & c2 & -> & H0 & H1 & H2 & Hlen & Hd & Hne & Hw).
    unfold threadRegexp. rewrite H0, H1, H2, !Ascii.eqb_refl. cbn [andb].
    assert (Hgo : ∀ rt, ridToEnd rt (String "_" rid) = Some (rt, rid)).
    { intros rt. unfold ridToEnd, wordsToEnd. rewrite Ascii.eqb_refl, Hw.
      destruct (String.eqb_spec rid ""); [contradiction | reflexivity]. }
    destruct resType as [| d1 [| d2 [| d3 more]]];
      cbn [String.length] in Hlen; try lia;
      cbn [Url.allChars] in Hd; cbn [String.append resTypeToEnd].
    + apply andb_prop in Hd as [Hd1 _]. rewrite Hd1.
      replace (isDigit "_") with false by reflexivity. apply Hgo.
    + apply andb_prop in Hd as [Hd1 Hd]. apply andb_prop in Hd as [Hd2 _].
      rewrite Hd1, Hd2, Hgo. reflexivity.
Qed.

(** X9: [getComments], [getHotComments] and [replyCommentE] hand a request
    to the client exactly when the thread id has the shape of
    [Comments.threadRegexp]; [rid] is then the part of the thread id after
    its third [_], [resourceType] the one or two digits before it, and the
    path of the comment lists ends with the thread id. For any other thread
    id they throw before any request. *)
Theorem comments_post_iff (thread : string) (limit offset : option Z)
    (commentId : Z) (content : string) (r : request) :
  (getComments thread limit offset = Posts r ↔
   ∃ resType rid,
     Shapes.threadParts thread resType rid ∧
     r = {| api := Client.W;
            path := "/v1/resource/comments/" +:+ thread;
            body := [("rid", VStr rid);
                     ("offset", VNum (orDefault offset 0));
                     ("limit", VNum (orDefault limit 20))] |}) ∧
  (getHotComments thread limit offset = Posts r ↔
   ∃ resType rid,
     Shapes.threadParts thread resType rid ∧
     r = {| api := Client.W;
            path := "/v1/resource/hotcomments/" +:+ thread;
            body := [("rid", VStr rid);
                     ("offset", VNum (orDefault offset 0));
                     ("limit", VNum (orDefault limit 20))] |}) ∧
  (replyCommentE thread commentId content = Posts r ↔
   ∃ resType rid,
     Shapes.threadParts thread resType rid ∧
     r = {| api := Client.E;
            path := "/v1/resource/comments/reply";
            body := [("threadId", VStr thread);
                     ("commentId", VNum commentId);
                     ("content", VStr content);
                     ("resourceType", VStr resType)] |}).
Proof.
  unfold getComments, getHotComments, replyCommentE.
  destruct (threadRegexp thread) as [[resType rid] |] eqn:Hm.
  - apply threadRegexp_spec in Hm as Hparts.
    repeat split.
    all: try (intros [= <-]; exists resType, rid; split;
              [exact Hparts | reflexivity]).
    all: intros (resType' & rid' & Hparts' & ->);
         apply threadRegexp_spec in Hparts'; rewrite Hm in Hparts';
         now injection Hparts' as <- <-.
  - repeat split; try discriminate.
    all: intros (resType' & rid' & Hparts' & _);
         apply threadRegexp_spec in Hparts'; congruence.
Qed.

(** The thread of the comments of a song. *)
Example getComments_song :
  getComments "R_SO_4_12345" None None =
  Posts {| api := Client.W; path := "/v1/resource/comments/R_SO_4_12345";
           body := [("rid", VStr "12345"); ("offset", VNum 0);
                    ("limit", VNum 20)] |} ∧
  getComments "12345" None None = Throws noGroups.
Proof. split; reflexivity. Qed.

Lemma digitsToEnd_spec (n : nat) (s : string) :
  digitsToEnd n s = true ↔
  String.length s = n ∧ Url.allChars isDigit s = true.
Proof.
  revert s. induction n as [| n IH]; intros [| c rest];
    cbn [digitsToEnd String.length Url.allChars]; try easy.
  rewrite andb_true_iff, IH. split.
  - intros (-> & <- & ->). auto.
  - intros ([= <-] & Hd). apply andb_prop in Hd as [-> ->]. auto.
Qed.

(** X10: [login] sends the account as [phone] to [/login/cellphone] exactly
    when it is a [1] followed by ten digits, and as [username] to [/login]
    otherwise; in both cases the body holds the MD5 digest of the password
    and [rememberLogin], and nothing else. *)
Theorem login_routes (md5hex : string → string) (acc pwd : string) :
  ∃ phone : bool,
    (phone = true ↔ Shapes.cellphone acc) ∧
    login md5hex acc pwd =
    Posts {| api := Client.W;
             path := if phone then "/login/cellphone" else "/login";
             body := [(if phone then "phone" else "username", VStr acc);
                      ("password", VStr (md5hex pwd));
                      ("rememberLogin", VBool true)] |}.
Proof.
  exists (cellphoneRegexp acc). split.
  - unfold cellphoneRegexp, Shapes.cellphone. destruct acc as [| c rest].
    + split; [discriminate | now intros (? & ? & _)].
    + rewrite andb_true_iff, digitsToEnd_spec. split.
      * intros (Hc & Hlen & Hd). apply Ascii.eqb_eq in Hc as ->.
        exists rest. auto.
      * intros (rest' & [= -> <-] & Hlen & Hd). auto.
  - unfold login. now destruct (cellphoneRegexp acc).
Qed.

(** *** Lists of ids written as text *)

(** Two integers with the same decimal writing are the same. *)
Lemma string_of_number_inj (a b : Z) :
  string_of_number a = string_of_number b → a = b.
Proof.
  unfold string_of_number. intros H. apply DecimalZ.to_int_inj.
  assert (Hnil : ∀ z, Z.to_int z ≠ Decimal.Pos Decimal.Nil ∧
                     Z.to_int z ≠ Decimal.Neg Decimal.Nil).
  { intros [| p | p]; cbn; split; try discriminate;
      intros [= Hp]; now apply (DecimalPos.Unsigned.to_uint_nonnil p). }
  apply (f_equal NilZero.int_of_string) in H.
  rewrite !NilZero.isi in H by apply Hnil. now injection H.
Qed.

Lemma length_append (a b : string) :
  String.length (a +:+ b) = (String.length a + String.length b)%nat.
Proof.
  induction a as [| c a IH]; cbn [String.append String.length];
    [reflexivity | now rewrite IH].
Qed.

Lemma append_empty_r (a : string) : a +:+ "" = a.
Proof.
  induction a as [| c a IH]; cbn [String.append]; [reflexivity |].
  now rewrite IH.
Qed.

Lemma append_inj_r (a b c : string) : a +:+ c = b +:+ c → a = b.
Proof.
  revert b. induction a as [| x a IH]; intros [| y b] H;
    cbn [String.append] in H.
  - reflexivity.
  - apply (f_equal String.length) in H.
    cbn [String.length] in H. rewrite length_append in H. lia.
  - apply (f_equal String.length) in H.
    cbn [String.length] in H. rewrite length_append in H. lia.
  - injection H as -> H. now rewrite (IH b H).
Qed.

(** Joining items that hold no comma, and cutting at the commas. *)
Lemma splitOn_join (items : list string) :
  items ≠ [] →
  Forall (fun item => Url.contains "," item = false) items →
  Url.splitOn "," (join "," items) = items.
Proof.
  induction items as [| item rest IH]; [contradiction |].
  intros _ Hall. inversion Hall as [| ? ? Hitem Hrest]; subst.
  destruct rest as [| item' rest'].
  - cbn [join]. now apply UrlFacts.splitOn_none.
  - change (join "," (item :: item' :: rest'))
      with (item +:+ String "," (join "," (item' :: rest'))).
    rewrite UrlFacts.splitOn_app by exact Hitem.
    now rewrite IH.
Qed.

Lemma join_inj (a b : list string) :
  Forall (fun item => Url.contains "," item = false ∧ item ≠ "") a →
  Forall (fun item => Url.contains "," item = false ∧ item ≠ "") b →
  join "," a = join "," b → a = b.
Proof.
  intros Ha Hb H.
  assert (Hne : ∀ l, l ≠ [] →
            Forall (fun item => Url.contains "," item = false ∧ item ≠ "") l
            → join "," l ≠ "").
  { intros [| item rest] Hl Hall; [contradiction |].
    inversion Hall as [| ? ? [_ Hitem] _]; subst.
    destruct rest; cbn [join]; [exact Hitem |].
    destruct item; [contradiction | discriminate]. }
  destruct a as [| x a'], b as [| y b']; try reflexivity.
  - exfalso. apply (Hne (y :: b')); [discriminate | exact Hb | now symmetry].
  - exfalso. apply (Hne (x :: a')); [discriminate | exact Ha | exact H].
  - rewrite <- (splitOn_join (x :: a')), <- (splitOn_join (y :: b'));
      try discriminate.
    + now rewrite H.
    + eapply Forall_impl; [exact Hb | now intros ? [? _]].
    + eapply Forall_impl; [exact Ha | now intros ? [? _]].
Qed.

Lemma string_of_number_item (n : Z) :
  Url.contains "," (string_of_number n) = false ∧ string_of_number n ≠ "".
Proof.
  split.
  - apply UrlFacts.allChars_contains;
      [reflexivity | apply UrlFacts.string_of_number_chars].
  - unfold string_of_number, NilZero.string_of_int, NilZero.string_of_uint.
    destruct (Z.to_int n) as [d | d]; destruct d; discriminate.
Qed.

Lemma stringifyId_item (n : Z) :
  Url.contains "," (stringifyId n) = false ∧ stringifyId n ≠ "".
Proof.
  split; [| discriminate].
  unfold stringifyId. rewrite !UrlFacts.contains_app.
  now rewrite (proj1 (string_of_number_item n)).
Qed.

(** X11: the text that [getSongDetail] sends as [c] and the text that
    [manipulatePlaylistTracks] (and with it [collectTrack] and
    [uncollectTrack]) sends as [trackIds] determine the list of ids: two
    calls that send the same request were given the same ids, in the same
    order. *)
Theorem id_lists_inj (a b : list Z) (op op' : string) (pid pid' : Z) :
  (getSongDetail a = getSongDetail b → a = b) ∧
  (manipulatePlaylistTracks op pid a = manipulatePlaylistTracks op' pid' b →
   op = op' ∧ pid = pid' ∧ a = b).
Proof.
  split.
  - unfold getSongDetail. intros [= H]. apply append_inj_r in H.
    apply join_inj in H.
    + revert b H. induction a as [| x a IH]; intros [| y b] H;
        try discriminate; [reflexivity |].
      cbn [map] in H. injection H as Hx Hrest.
      apply append_inj_r, string_of_number_inj in Hx.
      now rewrite Hx, (IH b Hrest).
    + apply Forall_forall. intros item Hin.
      apply list_elem_of_fmap in Hin as (n & -> & _).
      apply stringifyId_item.
    + apply Forall_forall. intros item Hin.
      apply list_elem_of_fmap in Hin as (n & -> & _).
      apply stringifyId_item.
  - unfold manipulatePlaylistTracks, stringifyTracks.
    intros [= -> -> H]. split; [reflexivity |]. split; [reflexivity |].
    apply append_inj_r in H. apply join_inj in H.
    + revert b H. induction a as [| x a IH]; intros [| y b] H;
        try discriminate; [reflexivity |].
      cbn [map] in H. injection H as Hx Hrest.
      now rewrite (string_of_number_inj x y Hx), (IH b Hrest).
    + apply Forall_forall. intros item Hin.
      apply list_elem_of_fmap in Hin as (n & -> & _).
      apply string_of_number_item.
    + apply Forall_forall. intros item Hin.
      apply list_elem_of_fmap in Hin as (n & -> & _).
      apply string_of_number_item.
Qed.

(** X12: [dislikeRadioSong] posts to [/radio/trash/add] with the query
    [alg=RT&songId=<songId>&time=<time>]: reading the query of the path
    back gives [RT], the song and the time, and the body holds the song
    alone. *)
Theorem dislikeRadioSong_query (songId time : Z) :
  ∃ p,
    dislikeRadioSong songId time =
      Posts {| api := Client.W; path := p;
               body := [("songId", VNum songId)] |} ∧
    p = "/radio/trash/add?alg=RT&songId=" +:+ string_of_number songId +:+
        "&time=" +:+ string_of_number time ∧
    Url.queryParam "alg" p = Some "RT" ∧
    Url.queryParam "songId" p = Some (string_of_number songId) ∧
    Url.queryParam "time" p = Some (string_of_number time).
Proof.
  eexists. split; [| split; [reflexivity |]].
  - unfold dislikeRadioSong. cbn [Url.stringify Url.stringifyPrimitive].
    rewrite !UrlFacts.qsEscape_id
      by (reflexivity || apply UrlFacts.string_of_number_chars).
    rewrite append_empty_r. reflexivity.
  - unfold Url.queryParam.
    change ("/radio/trash/add?alg=RT&songId=" +:+ string_of_number songId +:+
            "&time=" +:+ string_of_number time)
      with ("/radio/trash/add" +:+
            String "?" ("alg=RT" +:+
              String "&" ("songId=" +:+ string_of_number songId +:+
                          "&time=" +:+ string_of_number time))).
    rewrite UrlFacts.cutAt_app by reflexivity.
    rewrite UrlFacts.splitOn_app by reflexivity.
    replace ("songId=" +:+ string_of_number songId +:+
             "&time=" +:+ string_of_number time)
      with (("songId=" +:+ string_of_number songId) +:+
            String "&" ("time=" +:+ string_of_number time))
      by (cbn [String.append]; rewrite ?UrlFacts.append_assoc; reflexivity).
    rewrite UrlFacts.splitOn_app.
    2:{ rewrite UrlFacts.contains_app,
          (UrlFacts.allChars_contains "&" _ eq_refl
             (UrlFacts.string_of_number_chars songId)). reflexivity. }
    rewrite UrlFacts.splitOn_none.
    2:{ rewrite UrlFacts.contains_app,
          (UrlFacts.allChars_contains "&" _ eq_refl
             (UrlFacts.string_of_number_chars time)). reflexivity. }
    repeat split; reflexivity.
Qed.

End ApiFacts.

(** ** More on the urls *)

Module UrlMore.
Import Url Unescape.

#[local] Arguments String.append !s1 s2 / : simpl nomatch.

(** What [querystring.escape] writes reads back as what it was given. *)
Lemma qsUnescape_escape (s : string) : qsUnescape (qsEscape s) = Some s.
Proof.
  induction s as [| c s IH]; [reflexivity |].
  cbn [qsEscape]. destruct (noEscape c) eqn:Hc.
  - cbn [qsUnescape].
    destruct (Ascii.eqb_spec c "%") as [-> | _]; [discriminate |].
    now rewrite IH.
  - unfold hexTable. cbn [String.append qsUnescape].
    rewrite Ascii.eqb_refl.
    destruct (CodecFacts.hexByte_back c) as (-> & -> & ->).
    now rewrite IH.
Qed.

(** The url of a call, once the server listens. *)
Lemma getMusicUrlLocal_form (musicServerPort id : Z) (quality : string)
    (ignoreCache : bool) :
  0 < musicServerPort →
  getMusicUrlLocal musicServerPort id quality ignoreCache =
  Resolved {| url :=
    "http://localhost:" +:+ string_of_number musicServerPort +:+
    "/music?id=" +:+ string_of_number id +:+
    "&quality=" +:+ qsEscape quality +:+
    (if ignoreCache then "&ignoreCache=true" else "") |}.
Proof.
  intros Hport. unfold getMusicUrlLocal, format.
  cbn [protocol hostname port pathname query].
  rewrite UrlFacts.stringify_query.
  assert (Hp : truthy (VNum musicServerPort) = true).
  { unfold truthy. destruct (Z.eqb_spec musicServerPort 0); [lia | easy]. }
  rewrite Hp.
  set (q := "id=" +:+ _).
  assert (Hq : truthy (VStr q) = true) by reflexivity.
  rewrite Hq.
  rewrite (UrlFacts.replaceHash_id ("?" +:+ q))
    by apply UrlFacts.query_no_hash.
  subst q. reflexivity.
Qed.

(** X13: once the server listens, [getMusicUrlLocal] gives different urls
    for different requests: two calls that resolve with the same url were
    given the same id, the same quality and the same [ignoreCache]. *)
Theorem getMusicUrlLocal_inj (musicServerPort id id' : Z)
    (quality quality' : string) (ignoreCache ignoreCache' : bool) :
  0 < musicServerPort →
  getMusicUrlLocal musicServerPort id quality ignoreCache =
  getMusicUrlLocal musicServerPort id' quality' ignoreCache' →
  id = id' ∧ quality = quality' ∧ ignoreCache = ignoreCache'.
Proof.
  intros Hport H.
  rewrite !getMusicUrlLocal_form in H by exact Hport.
  destruct (UrlFacts.queryParam_local musicServerPort id quality ignoreCache)
    as (Hid & Hq & Hic).
  destruct (UrlFacts.queryParam_local musicServerPort id' quality'
              ignoreCache') as (Hid' & Hq' & Hic').
  cbn zeta in *.
  pose proof (f_equal (fun p => match p with
                                | Resolved res => queryParam "id" (url res)
                                | _ => None
                                end) H) as Eid.
  pose proof (f_equal (fun p => match p with
                                | Resolved res =>
                                    queryParam "quality" (url res)
                                | _ => None
                                end) H) as Eq.
  pose proof (f_equal (fun p => match p with
                                | Resolved res =>
                                    queryParam "ignoreCache" (url res)
                                | _ => None
                                end) H) as Eic.
  cbn [url] in Eid, Eq, Eic.
  rewrite Hid, Hid' in Eid. rewrite Hq, Hq' in Eq. rewrite Hic, Hic' in Eic.
  injection Eid as Eid. injection Eq as Eq.
  split; [now apply ApiFacts.string_of_number_inj |]. split.
  - apply (f_equal qsUnescape) in Eq.
    rewrite !qsUnescape_escape in Eq. now injection Eq.
  - destruct ignoreCache, ignoreCache'; congruence.
Qed.

(** X16: as long as the server does not listen yet ([musicServerPort] is
    still 0), the url that [getMusicUrlLocal] resolves with names no port:
    it is [http://localhost/music] with the same query. *)
Theorem getMusicUrlLocal_no_port (id : Z) (quality : string)
    (ignoreCache : bool) :
  getMusicUrlLocal 0 id quality ignoreCache =
  Resolved {| url :=
    "http://localhost/music?id=" +:+ string_of_number id +:+
    "&quality=" +:+ qsEscape quality +:+
    (if ignoreCache then "&ignoreCache=true" else "") |}.
Proof.
  unfold getMusicUrlLocal, format.
  cbn [protocol hostname port pathname query].
  rewrite UrlFacts.stringify_query.
  change (truthy (VNum 0)) with false.
  set (q := "id=" +:+ _).
  assert (Hq : truthy (VStr q) = true) by reflexivity.
  rewrite Hq.
  rewrite (UrlFacts.replaceHash_id ("?" +:+ q))
    by apply UrlFacts.query_no_hash.
  subst q. reflexivity.
Qed.

Lemma getMusicUrlLocal_inj_witness :
  0 < 40000 ∧
  getMusicUrlLocal 40000 12345 "h" true =
    getMusicUrlLocal 40000 12345 "h" true ∧
  12345 = 12345 ∧ "h" = "h" ∧ true = true.
Proof.
  split; [lia |]. split; [reflexivity |].
  apply (getMusicUrlLocal_inj 40000 12345 12345 "h" "h" true true);
    [lia | reflexivity].
Defined.

End UrlMore.

(** ** More on the temporary music urls *)

Module MusicUrlMore.
Import MusicUrl.

(** The guard of the three functions. *)
Lemma quality_guard (quality : string) :
  truthy (QualityMap quality) = false ↔
  quality ∉ "h" :: "m" :: "l" ::
            ["constructor"; "hasOwnProperty"; "isPrototypeOf";
             "propertyIsEnumerable"; "toLocaleString"; "toString";
             "valueOf"; "__defineGetter__"; "__defineSetter__";
             "__lookupGetter__"; "__lookupSetter__"] ++ ["__proto__"].
Proof.
  unfold QualityMap, ObjectPrototype.
  rewrite !not_elem_of_cons, not_elem_of_app, list_elem_of_singleton.
  destruct (String.eqb_spec quality "h") as [-> | Hh];
    [split; [discriminate | now intros [? _]] |].
  destruct (String.eqb_spec quality "m") as [-> | Hm];
    [split; [discriminate | now intros (_ & ? & _)] |].
  destruct (String.eqb_spec quality "l") as [-> | Hl];
    [split; [discriminate | now intros (_ & _ & ? & _)] |].
  case_bool_decide as Hin.
  - split; [discriminate | now intros (_ & _ & _ & ? & _)].
  - destruct (String.eqb_spec quality "__proto__") as [-> | Hp].
    + split; [discriminate | now intros (_ & _ & _ & _ & ?)].
    + split; [auto | reflexivity].
Qed.

(** X14: [getMusicUrlW], [getMusicUrlE] and [getMusicUrlL] throw, with the
    message that the quality is not in [h,m,l], exactly when the quality is
    none of [h], [m], [l] and none of the twelve property names that
    [QualityMap] inherits from [Object.prototype]; for every other quality
    they hand a request to the client. *)
Theorem getMusicUrl_throws_iff (i : idOrIds) (quality : string) :
  let accepted :=
    "h" :: "m" :: "l" ::
    ["constructor"; "hasOwnProperty"; "isPrototypeOf";
     "propertyIsEnumerable"; "toLocaleString"; "toString";
     "valueOf"; "__defineGetter__"; "__defineSetter__";
     "__lookupGetter__"; "__lookupSetter__"] ++ ["__proto__"] in
  (getMusicUrlW i quality = Throws (not_in_hml quality) ↔
   quality ∉ accepted) ∧
  (getMusicUrlE i quality = Throws (not_in_hml quality) ↔
   quality ∉ accepted) ∧
  (getMusicUrlL i quality = Throws (not_in_hml quality) ↔
   quality ∉ accepted) ∧
  (quality ∈ accepted →
   ∃ b, getMusicUrlW i quality =
          Posts Client.W "/song/enhance/player/url" b ∧
        getMusicUrlE i quality =
          Posts Client.E "/song/enhance/player/url" b ∧
        getMusicUrlL i quality =
          Posts Client.L "/api/song/enhance/player/url" b).
Proof.
  cbn zeta. rewrite <- quality_guard.
  unfold getMusicUrlW, getMusicUrlE, getMusicUrlL.
  destruct (truthy (QualityMap quality)) eqn:Hguard; cbn [negb].
  - repeat split; try discriminate. intros _. eexists. repeat split.
  - repeat split; auto. intros Hin.
    exfalso. exact (proj1 (quality_guard quality) Hguard Hin).
Qed.

End MusicUrlMore.
